(** * pkg/kubectl/resource/builder.go: the resource Builder

    A shallow embedding of the kubectl resource [Builder]: the accumulating
    configuration methods, the evaluation decision tree [visitorResult], the
    final assembly [Do] and the helper [SplitResourceArgument], with the
    properties of the specification stated and proved over them. *)

From Stdlib Require Import Ascii String.
From stdpp Require Import base strings list gmap.

Set Warnings "-register-all".

Open Scope string_scope.
Open Scope nat_scope.
Open Scope list_scope.

(** ** Go standard library string helpers *)

(** [strings.Split(s, sep)] for a one-byte separator: the segments between
    the occurrences of [sep]; never empty (an empty [s] gives one empty
    segment). *)
Fixpoint strings_Split (s : string) (sep : ascii) : list string :=
  match s with
  | EmptyString => [EmptyString]
  | String c rest =>
      if Ascii.eqb c sep then EmptyString :: strings_Split rest sep
      else match strings_Split rest sep with
           | seg :: segs => String c seg :: segs
           | [] => [String c EmptyString]
           end
  end.

(** [strings.Contains(s, sep)] for a one-byte [sep]. *)
Fixpoint strings_Contains (s : string) (sep : ascii) : bool :=
  match s with
  | EmptyString => false
  | String c rest => Ascii.eqb c sep || strings_Contains rest sep
  end.

(** [strings.Join(elems, sep)]. *)
Definition strings_Join (elems : list string) (sep : string) : string :=
  String.concat sep elems.

(** [strings.Index(s, p) == 0]. *)
Definition strings_IndexIsZero (s p : string) : bool := String.prefix p s.

(** [x != nil] for a value that may be nil. *)
Definition notNil {A} (x : option A) : bool :=
  match x with Some _ => true | None => false end.

(** ** SplitResourceArgument *)

(** The body of the [for] loop of [SplitResourceArgument]: [set] is the
    [util.StringSet] of segments seen so far, [out] the output slice. *)
Fixpoint splitLoop (segs : list string) (set : gset string) (out : list string)
  : list string :=
  match segs with
  | [] => out
  | s :: rest =>
      if decide (s ∈ set) then splitLoop rest set out
      else splitLoop rest ({[s]} ∪ set) (out ++ [s])
  end.

Definition SplitResourceArgument (arg : string) : list string :=
  splitLoop (strings_Split arg ","%char) ∅ [].

(** The specification's words, "the distinct segments in order of first
    occurrence": keep the head, drop its later copies. *)
Fixpoint first_occurrences (l : list string) : list string :=
  match l with
  | [] => []
  | x :: l' => x :: filter (λ y, y ≠ x) (first_occurrences l')
  end.

(** ** Errors and the data the builder exchanges with its collaborators *)

(** [meta.RESTMapping]: the resolved identity of an API resource type.
    [ScopeName] is what [mapping.Scope.Name()] returns. *)
Record RESTMapping := {
  Resource : string;
  APIVersion : string;
  Kind : string;
  ScopeName : string;
}.

(** [meta.RESTScopeNameNamespace], the name of the namespaced scope. *)
Definition RESTScopeNameNamespace : string := "namespace".

(** An operand of a [fmt.Errorf] call. *)
Inductive fmtArg :=
| ArgString (s : string)
| ArgError (e : string)
| ArgMappings (m : list (string * RESTMapping)).

(** Go [error] values. [Errorf] is an error made by the builder itself with
    [fmt.Errorf]; [Foreign] is an error handed back by a collaborator (the
    mapper, the client, a parser, the file system), identified by its
    message; [Aggregate] is a list of errors reported as one; [Panic] is a
    run-time panic. *)
Inductive error :=
| Errorf (format : string) (args : list fmtArg)
| Foreign (msg : string)
| Aggregate (errlist : list error)
| Panic (msg : string).

(** Modelled from the spec: [errors.NewAggregate] of pkg/util/errors is not
    part of the sources; its result is "the aggregate of those errors", the
    recorded errors kept in order. *)
Definition NewAggregate (errlist : list error) : error := Aggregate errlist.

(** An error the builder made itself. *)
Definition builderError (e : error) : Prop :=
  match e with Errorf _ _ => True | _ => False end.

(** The specification's ConfigurationError: an error about the combination
    or the form of the input, made by the builder itself, or the aggregate of
    such errors recorded during accumulation. *)
Definition ConfigurationError (e : error) : Prop :=
  match e with
  | Errorf _ _ => True
  | Aggregate errlist => Forall builderError errlist
  | Foreign _ | Panic _ => False
  end.

(** What [os.Stat] reports for a path. *)
Inductive StatResult :=
| StatNotExist
| StatFailed (e : string)
| StatInfo (isDir : bool).

Record resourceTuple := {
  tuple_Resource : string;
  tuple_Name : string;
}.

(** The per-item decorators of visitor.go. *)
Module VisitorFuncs.
Inductive VisitorFunc :=
| SetNamespace (namespace : string)
| RequireNamespace (namespace : string)
| FilterNamespace
| RetrieveLatest
| RetrieveLazy.
End VisitorFuncs.
Export VisitorFuncs (VisitorFunc).

(** The external collaborators of the builder: the URL and selector
    parsers, the file system, and the [Mapper] (type registry, client
    factory and the fetch of one object). A failing call returns the
    message of its error on the left. *)
Class Collaborators := {
  url_URL : Type;
  io_Reader : Type;
  labels_Selector : Type;
  RESTClient : Type;
  runtime_Object : Type;
  url_Parse : string → string + url_URL;
  os_Stdin : io_Reader;
  os_Stat : string → StatResult;
  labels_Parse : string → string + labels_Selector;
  labels_Everything : labels_Selector;
  selector_Empty : labels_Selector → bool;
  AliasesForResource : string → option (list string);
  VersionAndKindForResource : string → string + (string * string);
  mapper_RESTMapping : string → string → string + RESTMapping;
  ClientForMapping : RESTMapping → string + RESTClient;
  helper_Get : RESTClient → RESTMapping → string → string → string + runtime_Object;
}.

Section Model.
Context `{C : Collaborators}.

(** [Info]: the identity of one resource and, once fetched, its object. *)
Record Info := {
  Client : RESTClient;
  Mapping : RESTMapping;
  Namespace : string;
  Name : string;
  Object : option runtime_Object;
}.

Definition NewInfo (client : RESTClient) (mapping : RESTMapping)
    (namespace name : string) : Info :=
  {| Client := client; Mapping := mapping; Namespace := namespace;
     Name := name; Object := None |}.

(** The visitors the builder assembles. [NilVisitor] is the nil interface
    value; [InfoVisitor] is an [*Info] used as a [Visitor]. The [Mapper]
    every visitor carries is the ambient [Collaborators]. *)
Inductive Visitor :=
| NilVisitor
| URLVisitor (u : url_URL)
| NewStreamVisitor (r : io_Reader) (name : string) (ignoreErrors : bool)
| DirectoryVisitor (path : string) (extensions : list string)
    (recursive ignoreErrors : bool)
| PathVisitor (path : string) (ignoreErrors : bool)
| NewSelector (client : RESTClient) (mapping : RESTMapping)
    (namespace : string) (selector : labels_Selector)
| InfoVisitor (info : Info)
| VisitorList (l : list Visitor)
| EagerVisitorList (l : list Visitor)
| NewFlattenListVisitor (v : Visitor)
| NewDecoratedVisitor (v : Visitor) (fn : list VisitorFunc).

Record Result := {
  singular : bool;
  err : option error;
  visitor : Visitor;
  sources : list Visitor;
}.

Record Builder := {
  errs : list error;
  paths : list Visitor;
  stream : bool;
  dir : bool;
  selector : option labels_Selector;
  selectAll : bool;
  resources : list string;
  namespace : string;
  names : list string;
  resourceTuples : list resourceTuple;
  defaultNamespace : bool;
  requireNamespace : bool;
  flatten : bool;
  latest : bool;
  singleResourceType : bool;
  continueOnError : bool;
}.

(** Assignment to one field of the builder. *)
Definition set_errs (v : list error) (b : Builder) : Builder :=
  {| errs := v; paths := paths b; stream := stream b; dir := dir b; selector
     := selector b; selectAll := selectAll b; resources := resources b;
     namespace := namespace b; names := names b; resourceTuples :=
     resourceTuples b; defaultNamespace := defaultNamespace b;
     requireNamespace := requireNamespace b; flatten := flatten b; latest :=
     latest b; singleResourceType := singleResourceType b; continueOnError
     := continueOnError b |}.

Definition set_paths (v : list Visitor) (b : Builder) : Builder :=
  {| errs := errs b; paths := v; stream := stream b; dir := dir b; selector
     := selector b; selectAll := selectAll b; resources := resources b;
     namespace := namespace b; names := names b; resourceTuples :=
     resourceTuples b; defaultNamespace := defaultNamespace b;
     requireNamespace := requireNamespace b; flatten := flatten b; latest :=
     latest b; singleResourceType := singleResourceType b; continueOnError
     := continueOnError b |}.

Definition set_stream (v : bool) (b : Builder) : Builder :=
  {| errs := errs b; paths := paths b; stream := v; dir := dir b; selector
     := selector b; selectAll := selectAll b; resources := resources b;
     namespace := namespace b; names := names b; resourceTuples :=
     resourceTuples b; defaultNamespace := defaultNamespace b;
     requireNamespace := requireNamespace b; flatten := flatten b; latest :=
     latest b; singleResourceType := singleResourceType b; continueOnError
     := continueOnError b |}.

Definition set_dir (v : bool) (b : Builder) : Builder :=
  {| errs := errs b; paths := paths b; stream := stream b; dir := v;
     selector := selector b; selectAll := selectAll b; resources :=
     resources b; namespace := namespace b; names := names b; resourceTuples
     := resourceTuples b; defaultNamespace := defaultNamespace b;
     requireNamespace := requireNamespace b; flatten := flatten b; latest :=
     latest b; singleResourceType := singleResourceType b; continueOnError
     := continueOnError b |}.

Definition set_selector (v : option labels_Selector) (b : Builder) : Builder :=
  {| errs := errs b; paths := paths b; stream := stream b; dir := dir b;
     selector := v; selectAll := selectAll b; resources := resources b;
     namespace := namespace b; names := names b; resourceTuples :=
     resourceTuples b; defaultNamespace := defaultNamespace b;
     requireNamespace := requireNamespace b; flatten := flatten b; latest :=
     latest b; singleResourceType := singleResourceType b; continueOnError
     := continueOnError b |}.

Definition set_selectAll (v : bool) (b : Builder) : Builder :=
  {| errs := errs b; paths := paths b; stream := stream b; dir := dir b;
     selector := selector b; selectAll := v; resources := resources b;
     namespace := namespace b; names := names b; resourceTuples :=
     resourceTuples b; defaultNamespace := defaultNamespace b;
     requireNamespace := requireNamespace b; flatten := flatten b; latest :=
     latest b; singleResourceType := singleResourceType b; continueOnError
     := continueOnError b |}.

Definition set_resources (v : list string) (b : Builder) : Builder :=
  {| errs := errs b; paths := paths b; stream := stream b; dir := dir b;
     selector := selector b; selectAll := selectAll b; resources := v;
     namespace := namespace b; names := names b; resourceTuples :=
     resourceTuples b; defaultNamespace := defaultNamespace b;
     requireNamespace := requireNamespace b; flatten := flatten b; latest :=
     latest b; singleResourceType := singleResourceType b; continueOnError
     := continueOnError b |}.

Definition set_namespace (v : string) (b : Builder) : Builder :=
  {| errs := errs b; paths := paths b; stream := stream b; dir := dir b;
     selector := selector b; selectAll := selectAll b; resources :=
     resources b; namespace := v; names := names b; resourceTuples :=
     resourceTuples b; defaultNamespace := defaultNamespace b;
     requireNamespace := requireNamespace b; flatten := flatten b; latest :=
     latest b; singleResourceType := singleResourceType b; continueOnError
     := continueOnError b |}.

Definition set_names (v : list string) (b : Builder) : Builder :=
  {| errs := errs b; paths := paths b; stream := stream b; dir := dir b;
     selector := selector b; selectAll := selectAll b; resources :=
     resources b; namespace := namespace b; names := v; resourceTuples :=
     resourceTuples b; defaultNamespace := defaultNamespace b;
     requireNamespace := requireNamespace b; flatten := flatten b; latest :=
     latest b; singleResourceType := singleResourceType b; continueOnError
     := continueOnError b |}.

Definition set_resourceTuples (v : list resourceTuple) (b : Builder) : Builder :=
  {| errs := errs b; paths := paths b; stream := stream b; dir := dir b;
     selector := selector b; selectAll := selectAll b; resources :=
     resources b; namespace := namespace b; names := names b; resourceTuples
     := v; defaultNamespace := defaultNamespace b; requireNamespace :=
     requireNamespace b; flatten := flatten b; latest := latest b;
     singleResourceType := singleResourceType b; continueOnError :=
     continueOnError b |}.

Definition set_defaultNamespace (v : bool) (b : Builder) : Builder :=
  {| errs := errs b; paths := paths b; stream := stream b; dir := dir b;
     selector := selector b; selectAll := selectAll b; resources :=
     resources b; namespace := namespace b; names := names b; resourceTuples
     := resourceTuples b; defaultNamespace := v; requireNamespace :=
     requireNamespace b; flatten := flatten b; latest := latest b;
     singleResourceType := singleResourceType b; continueOnError :=
     continueOnError b |}.

Definition set_requireNamespace (v : bool) (b : Builder) : Builder :=
  {| errs := errs b; paths := paths b; stream := stream b; dir := dir b;
     selector := selector b; selectAll := selectAll b; resources :=
     resources b; namespace := namespace b; names := names b; resourceTuples
     := resourceTuples b; defaultNamespace := defaultNamespace b;
     requireNamespace := v; flatten := flatten b; latest := latest b;
     singleResourceType := singleResourceType b; continueOnError :=
     continueOnError b |}.

Definition set_flatten (v : bool) (b : Builder) : Builder :=
  {| errs := errs b; paths := paths b; stream := stream b; dir := dir b;
     selector := selector b; selectAll := selectAll b; resources :=
     resources b; namespace := namespace b; names := names b; resourceTuples
     := resourceTuples b; defaultNamespace := defaultNamespace b;
     requireNamespace := requireNamespace b; flatten := v; latest := latest
     b; singleResourceType := singleResourceType b; continueOnError :=
     continueOnError b |}.

Definition set_latest (v : bool) (b : Builder) : Builder :=
  {| errs := errs b; paths := paths b; stream := stream b; dir := dir b;
     selector := selector b; selectAll := selectAll b; resources :=
     resources b; namespace := namespace b; names := names b; resourceTuples
     := resourceTuples b; defaultNamespace := defaultNamespace b;
     requireNamespace := requireNamespace b; flatten := flatten b; latest :=
     v; singleResourceType := singleResourceType b; continueOnError :=
     continueOnError b |}.

Definition set_singleResourceType (v : bool) (b : Builder) : Builder :=
  {| errs := errs b; paths := paths b; stream := stream b; dir := dir b;
     selector := selector b; selectAll := selectAll b; resources :=
     resources b; namespace := namespace b; names := names b; resourceTuples
     := resourceTuples b; defaultNamespace := defaultNamespace b;
     requireNamespace := requireNamespace b; flatten := flatten b; latest :=
     latest b; singleResourceType := v; continueOnError := continueOnError b
     |}.

Definition set_continueOnError (v : bool) (b : Builder) : Builder :=
  {| errs := errs b; paths := paths b; stream := stream b; dir := dir b;
     selector := selector b; selectAll := selectAll b; resources :=
     resources b; namespace := namespace b; names := names b; resourceTuples
     := resourceTuples b; defaultNamespace := defaultNamespace b;
     requireNamespace := requireNamespace b; flatten := flatten b; latest :=
     latest b; singleResourceType := singleResourceType b; continueOnError
     := v |}.

(** ** Calls to the collaborators, and early returns *)

(** The calls evaluation makes to the mapper and to the client. *)
Inductive Event :=
| CallVersionAndKindForResource (resource : string)
| CallRESTMapping (kind version : string)
| CallClientForMapping (mapping : RESTMapping)
| CallGet (info : Info).

(** A computation that logs its calls and either returns early with an [X]
    (a Go [return] in the middle of a function) or goes on with an [A]. *)
Definition Run (X A : Type) : Type := (X + A) * list Event.

Definition ret {X A} (a : A) : Run X A := (inr a, []).

Definition exit {X A} (x : X) : Run X A := (inl x, []).

Definition bind {X A B} (m : Run X A) (k : A → Run X B) : Run X B :=
  match m with
  | (inl x, calls) => (inl x, calls)
  | (inr a, calls) => let '(r, calls') := k a in (r, calls ++ calls')
  end.

(** [if err != nil { return h err }] after a call that may fail. *)
Definition orExit {E X A} (m : Run E A) (h : E → X) : Run X A :=
  match m with
  | (inl e, calls) => (inl (h e), calls)
  | (inr a, calls) => (inr a, calls)
  end.

(** One call to a collaborator. *)
Definition call {A} (ev : Event) (r : string + A) : Run error A :=
  match r with
  | inl msg => (inl (Foreign msg), [ev])
  | inr a => (inr a, [ev])
  end.

Notation "x <~ m ;; k" := (bind m (λ x, k))
  (at level 100, m at next level, right associativity).

(** Both ways out of a function that returns a [*Result]. *)
Definition returned {A} (m : Run A A) : A * list Event :=
  match m with
  | (inl r, calls) => (r, calls)
  | (inr r, calls) => (r, calls)
  end.

(** Modelled from the spec: [Info.Get] of visitor.go is not part of the
    sources; "fetch() -> fills object, or NotFoundError / ConnectionError,
    performed against the bound client using (namespace, name)". *)
Definition Info_Get (info : Info) : Run error Info :=
  x <~ call (CallGet info)
         (helper_Get (Client info) (Mapping info) (Namespace info) (Name info)) ;;
  ret {| Client := Client info; Mapping := Mapping info;
         Namespace := Namespace info; Name := Name info; Object := Some x |}.

(** ** The configuration methods *)

Definition NewBuilder : Builder :=
  {| errs := []; paths := []; stream := false; dir := false;
     selector := None; selectAll := false; resources := [];
     namespace := ""; names := []; resourceTuples := [];
     defaultNamespace := false; requireNamespace := false;
     flatten := false; latest := false; singleResourceType := false;
     continueOnError := false |}.

Definition URL (urls : list url_URL) (b : Builder) : Builder :=
  fold_left (λ b u, set_paths (paths b ++ [URLVisitor u]) b) urls b.

Definition Stream (r : io_Reader) (name : string) (b : Builder) : Builder :=
  let b := set_stream true b in
  set_paths (paths b ++ [NewStreamVisitor r name (continueOnError b)]) b.

Definition Stdin (b : Builder) : Builder := Stream os_Stdin "STDIN" b.

(** One round of the loop of [Path]. *)
Definition Path1 (b : Builder) (p : string) : Builder :=
  match os_Stat p with
  | StatNotExist =>
      set_errs (errs b ++ [Errorf "the path %q does not exist" [ArgString p]]) b
  | StatFailed e =>
      set_errs (errs b ++ [Errorf "the path %q cannot be accessed: %v"
                             [ArgString p; ArgError e]]) b
  | StatInfo isDir =>
      if isDir then
        let b := set_dir true b in
        set_paths (paths b ++ [DirectoryVisitor p [".json"; ".yaml"] false
                                 (continueOnError b)]) b
      else
        set_paths (paths b ++ [PathVisitor p (continueOnError b)]) b
  end.

Definition Path (ps : list string) (b : Builder) : Builder :=
  fold_left Path1 ps b.

(** One round of the loop of [FilenameParam]. *)
Definition FilenameParam1 (b : Builder) (s : string) : Builder :=
  if String.eqb s "-" then Stdin b
  else if strings_IndexIsZero s "http://" || strings_IndexIsZero s "https://" then
    match url_Parse s with
    | inl e =>
        set_errs (errs b ++ [Errorf "the URL passed to filename %q is not valid: %v"
                               [ArgString s; ArgError e]]) b
    | inr u => URL [u] b
    end
  else Path [s] b.

Definition FilenameParam (ps : list string) (b : Builder) : Builder :=
  fold_left FilenameParam1 ps b.

Definition ResourceTypes (types : list string) (b : Builder) : Builder :=
  set_resources (resources b ++ types) b.

(** [Selector] takes an interface value, which may be nil. *)
Definition Selector (sel : option labels_Selector) (b : Builder) : Builder :=
  set_selector sel b.

Definition SelectorParam (s : string) (b : Builder) : Builder :=
  match labels_Parse s with
  | inl e =>
      set_errs (errs b ++ [Errorf "the provided selector %q is not valid: %v"
                             [ArgString s; ArgError e]]) b
  | inr sel =>
      if selector_Empty sel then b
      else if selectAll b then
        set_errs (errs b ++ [Errorf "found non empty selector %q with previously set 'all' parameter. "
                               [ArgString s]]) b
      else Selector (Some sel) b
  end.

Definition NamespaceParam (ns : string) (b : Builder) : Builder :=
  set_namespace ns b.

Definition DefaultNamespace (b : Builder) : Builder :=
  set_defaultNamespace true b.

Definition RequireNamespace (b : Builder) : Builder :=
  set_requireNamespace true b.

Definition SelectAllParam (all : bool) (b : Builder) : Builder :=
  if all && notNil (selector b) then
    set_errs (errs b ++ [Errorf "setting 'all' parameter but found a non empty selector. " []]) b
  else set_selectAll all b.

Definition replaceAliases (args : list string) : list string :=
  fold_left (λ replaced arg,
               let arg := match AliasesForResource arg with
                          | Some aliases => strings_Join aliases ","
                          | None => arg
                          end in
               replaced ++ [arg]) args [].

Definition hasCombinedTypeArgs (args : list string) : bool * option error :=
  let hasSlash :=
    fold_left (λ n s, if strings_Contains s "/"%char then S n else n) args 0 in
  if (0 <? hasSlash) && (hasSlash =? length args) then (true, None)
  else if (0 <? hasSlash) && negb (hasSlash =? length args) then
    (true, Some (Errorf "when passing arguments in resource/name form, all arguments must include the resource" []))
  else (false, None).

(** The loop of [ResourceTypeOrNameArgs] over arguments in resource/name
    form; an early return keeps the tuples already appended. *)
Fixpoint combinedTuples (args : list string) (b : Builder) : Builder :=
  match args with
  | [] => b
  | s :: rest =>
      let seg := strings_Split s "/"%char in
      if negb (length seg =? 2) then
        set_errs (errs b ++ [Errorf "arguments in resource/name form may not have more than one slash" []]) b
      else
        let resource := nth 0 seg "" in
        let name := nth 1 seg "" in
        if (String.length resource =? 0) || (String.length name =? 0)
           || negb (length (SplitResourceArgument resource) =? 1) then
          set_errs (errs b ++ [Errorf "arguments in resource/name form must have a single resource and name" []]) b
        else
          combinedTuples rest
            (set_resourceTuples
               (resourceTuples b ++ [{| tuple_Resource := resource; tuple_Name := name |}]) b)
  end.

Definition ResourceTypeOrNameArgs (allowEmptySelector : bool)
    (args : list string) (b : Builder) : Builder :=
  let args := replaceAliases args in
  match hasCombinedTypeArgs args with
  | (true, Some e) => set_errs (errs b ++ [e]) b
  | (true, None) => combinedTuples args b
  | (false, _) =>
      if 2 <? length args then
        let b := set_names (names b ++ drop 1 args) b in
        ResourceTypes (SplitResourceArgument (nth 0 args "")) b
      else if length args =? 2 then
        let b := set_names (names b ++ [nth 1 args ""]) b in
        ResourceTypes (SplitResourceArgument (nth 0 args "")) b
      else if length args =? 1 then
        let b := ResourceTypes (SplitResourceArgument (nth 0 args "")) b in
        if negb (notNil (selector b)) && allowEmptySelector then
          set_selector (Some labels_Everything) b
        else b
      else if length args =? 0 then b
      else
        set_errs (errs b ++ [Errorf "when passing arguments, must be resource or resource and name" []]) b
  end.

Definition ResourceTypeAndNameArgs (args : list string) (b : Builder) : Builder :=
  if length args =? 2 then
    let b := set_names (names b ++ [nth 1 args ""]) b in
    ResourceTypes (SplitResourceArgument (nth 0 args "")) b
  else if length args =? 0 then b
  else
    set_errs (errs b ++ [Errorf "when passing arguments, must be resource and name" []]) b.

Definition Flatten (b : Builder) : Builder := set_flatten true b.

Definition Latest (b : Builder) : Builder := set_latest true b.

Definition ContinueOnError (b : Builder) : Builder := set_continueOnError true b.

Definition SingleResourceType (b : Builder) : Builder :=
  set_singleResourceType true b.

(** ** Resolution of resource types *)

Definition callVersionAndKindForResource (r : string) : Run error (string * string) :=
  call (CallVersionAndKindForResource r) (VersionAndKindForResource r).

Definition callRESTMapping (kind version : string) : Run error RESTMapping :=
  call (CallRESTMapping kind version) (mapper_RESTMapping kind version).

Definition callClientForMapping (mapping : RESTMapping) : Run error RESTClient :=
  call (CallClientForMapping mapping) (ClientForMapping mapping).

(** The loop of [resourceMappings]. *)
Fixpoint resourceMappingsLoop (rs : list string) (mappings : list RESTMapping)
  : Run error (list RESTMapping) :=
  match rs with
  | [] => ret mappings
  | r :: rest =>
      vk <~ callVersionAndKindForResource r ;;
      let '(version, kind) := vk in
      mapping <~ callRESTMapping kind version ;;
      resourceMappingsLoop rest (mappings ++ [mapping])
  end.

Definition resourceMappings (b : Builder) : Run error (list RESTMapping) :=
  if (1 <? length (resources b)) && singleResourceType b then
    exit (Errorf "you may only specify a single resource type" [])
  else resourceMappingsLoop (resources b) [].

(** The loop of [resourceTupleMappings]: the table [mappings] and the set
    [canonical] of canonical resource names. *)
Fixpoint resourceTupleMappingsLoop (ts : list resourceTuple)
    (mappings : gmap string RESTMapping) (canonical : gset string)
  : Run error (gmap string RESTMapping * gset string) :=
  match ts with
  | [] => ret (mappings, canonical)
  | r :: rest =>
      match mappings !! tuple_Resource r with
      | Some _ => resourceTupleMappingsLoop rest mappings canonical
      | None =>
          vk <~ callVersionAndKindForResource (tuple_Resource r) ;;
          let '(version, kind) := vk in
          mapping <~ callRESTMapping kind version ;;
          let mappings := <[Resource mapping := mapping]> mappings in
          let mappings := <[tuple_Resource r := mapping]> mappings in
          let canonical := {[Resource mapping]} ∪ canonical in
          resourceTupleMappingsLoop rest mappings canonical
      end
  end.

(** The check that ends [resourceTupleMappings]. *)
Definition singleTypeCheck (b : Builder) (mappings : gmap string RESTMapping)
    (canonical : gset string) : Run error (gmap string RESTMapping) :=
  if (1 <? size canonical) && singleResourceType b then
    exit (Errorf "you may only specify a single resource type" [])
  else ret mappings.

Definition resourceTupleMappings (b : Builder) : Run error (gmap string RESTMapping) :=
  mc <~ resourceTupleMappingsLoop (resourceTuples b) ∅ ∅ ;;
  singleTypeCheck b mc.1 mc.2.

(** ** Evaluation *)

(** [&Result{singular: isSingular, err: e}]; the literals without a
    [singular] field leave it false. *)
Definition errorResult (isSingular : bool) (e : error) : Result :=
  {| singular := isSingular; err := Some e; visitor := NilVisitor; sources := [] |}.

(** The namespace a request for [mapping] is scoped to. *)
Definition namespaced (mapping : RESTMapping) : bool :=
  String.eqb (ScopeName mapping) RESTScopeNameNamespace.

(** Selector mode: one selector visitor per mapping. *)
Fixpoint selectorVisitors (b : Builder) (sel : labels_Selector)
    (mappings : list RESTMapping) (visitors : list Visitor)
  : Run Result (list Visitor) :=
  match mappings with
  | [] => ret visitors
  | mapping :: rest =>
      client <~ orExit (callClientForMapping mapping) (errorResult false) ;;
      let selectorNamespace := if negb (namespaced mapping) then "" else namespace b in
      selectorVisitors b sel rest
        (visitors ++ [NewSelector client mapping selectorNamespace sel])
  end.

(** The key of the client table: [fmt.Sprintf("%s/%s", APIVersion, Resource)]. *)
Definition clientKey (mapping : RESTMapping) : string :=
  APIVersion mapping +:+ "/" +:+ Resource mapping.

(** Tuple mode: one client for each resource. *)
Fixpoint tupleClients (mappings : list RESTMapping) (clients : gmap string RESTClient)
  : Run Result (gmap string RESTClient) :=
  match mappings with
  | [] => ret clients
  | mapping :: rest =>
      let s := clientKey mapping in
      match clients !! s with
      | Some _ => tupleClients rest clients
      | None =>
          client <~ orExit (callClientForMapping mapping) (errorResult false) ;;
          tupleClients rest (<[s := client]> clients)
      end
  end.

(** Tuple mode: one [Info] per tuple. *)
Fixpoint tupleItems (b : Builder) (isSingular : bool)
    (mappings : gmap string RESTMapping) (clients : gmap string RESTClient)
    (ts : list resourceTuple) (items : list Visitor) : Run Result (list Visitor) :=
  match ts with
  | [] => ret items
  | tuple :: rest =>
      match mappings !! tuple_Resource tuple with
      | None =>
          exit (errorResult isSingular
                  (Errorf "resource %q is not recognized: %v"
                     [ArgString (tuple_Resource tuple); ArgMappings (map_to_list mappings)]))
      | Some mapping =>
          match clients !! clientKey mapping with
          | None =>
              exit (errorResult isSingular
                      (Errorf "could not find a client for resource %q"
                         [ArgString (tuple_Resource tuple)]))
          | Some client =>
              if namespaced mapping && (String.length (namespace b) =? 0) then
                exit (errorResult isSingular
                        (Errorf "namespace may not be empty when retrieving a resource by name" []))
              else
                let selectorNamespace := if negb (namespaced mapping) then "" else namespace b in
                let info := NewInfo client mapping selectorNamespace (tuple_Name tuple) in
                tupleItems b isSingular mappings clients rest (items ++ [InfoVisitor info])
          end
      end
  end.

(** Name mode: every name is fetched while the result is built. *)
Fixpoint nameVisitors (isSingular : bool) (client : RESTClient)
    (mapping : RESTMapping) (selectorNamespace : string)
    (ns : list string) (visitors : list Visitor) : Run Result (list Visitor) :=
  match ns with
  | [] => ret visitors
  | name :: rest =>
      let info := NewInfo client mapping selectorNamespace name in
      info <~ orExit (Info_Get info) (errorResult isSingular) ;;
      nameVisitors isSingular client mapping selectorNamespace rest
        (visitors ++ [InfoVisitor info])
  end.

(** The selector branch of [visitorResult] ("visit selectors"). *)
Definition visitSelector (b : Builder) (sel : labels_Selector) : Run Result Result :=
  if negb (length (names b) =? 0) then
    exit (errorResult false (Errorf "name cannot be provided when a selector is specified" []))
  else if negb (length (resourceTuples b) =? 0) then
    exit (errorResult false (Errorf "selectors and the all flag cannot be used when passing resource/name arguments" []))
  else if length (resources b) =? 0 then
    exit (errorResult false (Errorf "at least one resource must be specified to use a selector" []))
  else if negb (length (paths b) =? 0) then
    if selector_Empty sel then
      exit (errorResult false (Errorf "when paths, URLs, or stdin is provided as input, you may not specify a resource by arguments as well" []))
    else
      exit (errorResult false (Errorf "a selector may not be specified when path, URL, or stdin is provided as input" []))
  else
    mappings <~ orExit (resourceMappings b) (errorResult false) ;;
    visitors <~ selectorVisitors b sel mappings [] ;;
    if continueOnError b then
      ret {| singular := false; err := None;
             visitor := EagerVisitorList visitors; sources := visitors |}
    else
      ret {| singular := false; err := None;
             visitor := VisitorList visitors; sources := visitors |}.

(** The tuple branch ("visit items specified by resource and name"). The
    clients are made in the order Go ranges over the table, which the
    language leaves open; here it is the order of [map_to_list]. *)
Definition visitTuples (b : Builder) : Run Result Result :=
  let isSingular := length (resourceTuples b) =? 1 in
  if negb (length (paths b) =? 0) then
    exit (errorResult isSingular (Errorf "when paths, URLs, or stdin is provided as input, you may not specify a resource by arguments as well" []))
  else if negb (length (resources b) =? 0) then
    exit (errorResult isSingular (Errorf "you may not specify individual resources and bulk resources in the same call" []))
  else
    mappings <~ orExit (resourceTupleMappings b) (errorResult isSingular) ;;
    clients <~ tupleClients (map_to_list mappings).*2 ∅ ;;
    items <~ tupleItems b isSingular mappings clients (resourceTuples b) [] ;;
    let visitors :=
      if continueOnError b then EagerVisitorList items else VisitorList items in
    ret {| singular := isSingular; err := None; visitor := visitors; sources := items |}.

(** The name branch ("visit items specified by name"). *)
Definition visitNames (b : Builder) : Run Result Result :=
  let isSingular := length (names b) =? 1 in
  if negb (length (paths b) =? 0) then
    exit (errorResult isSingular (Errorf "when paths, URLs, or stdin is provided as input, you may not specify a resource by arguments as well" []))
  else if length (resources b) =? 0 then
    exit (errorResult isSingular (Errorf "you must provide a resource and a resource name together" []))
  else if 1 <? length (resources b) then
    exit (errorResult isSingular (Errorf "you must specify only one resource" []))
  else
    mappings <~ orExit (resourceMappings b) (errorResult isSingular) ;;
    match mappings with
    | [] => exit (errorResult false (Panic "index out of range"))
    | mapping :: _ =>
        client <~ orExit (callClientForMapping mapping) (errorResult false) ;;
        if namespaced mapping && (String.length (namespace b) =? 0) then
          exit (errorResult isSingular (Errorf "namespace may not be empty when retrieving a resource by name" []))
        else
          let selectorNamespace := if negb (namespaced mapping) then "" else namespace b in
          visitors <~ nameVisitors isSingular client mapping selectorNamespace (names b) [] ;;
          ret {| singular := isSingular; err := None;
                 visitor := VisitorList visitors; sources := visitors |}
    end.

(** The path branch ("visit items specified by paths"). *)
Definition visitPaths (b : Builder) : Run Result Result :=
  let singular := negb (dir b) && negb (stream b) && (length (paths b) =? 1) in
  if negb (length (resources b) =? 0) then
    exit (errorResult singular (Errorf "when paths, URLs, or stdin is provided as input, you may not specify resource arguments as well" []))
  else
    let visitors :=
      if continueOnError b then EagerVisitorList (paths b) else VisitorList (paths b) in
    let visitors :=
      if latest b then
        let visitors := if flatten b then NewFlattenListVisitor visitors else visitors in
        NewDecoratedVisitor visitors [VisitorFuncs.RetrieveLatest]
      else visitors in
    ret {| singular := singular; err := None; visitor := visitors; sources := paths b |}.

(** The builder as evaluation leaves it: "select all" overwrites the
    selector. *)
Definition withSelectAll (b : Builder) : Builder :=
  if selectAll b then set_selector (Some labels_Everything) b else b.

(** [visitorResult]: the result and the calls made to obtain it. *)
Definition visitorResult (b : Builder) : Result * list Event :=
  returned
    (if 0 <? length (errs b) then
       exit (errorResult false (NewAggregate (errs b)))
     else
       let b := withSelectAll b in
       match selector b with
       | Some sel => visitSelector b sel
       | None =>
           if negb (length (resourceTuples b) =? 0) then visitTuples b
           else if negb (length (names b) =? 0) then visitNames b
           else if negb (length (paths b) =? 0) then visitPaths b
           else exit (errorResult false (Errorf "you must provide one or more resources by argument or filename" []))
       end).

Definition set_visitor (v : Visitor) (r : Result) : Result :=
  {| singular := singular r; err := err r; visitor := v; sources := sources r |}.

(** [Do]: the result and the calls made to obtain it. Evaluation leaves
    every flag [Do] reads as it was. *)
Definition Do (b : Builder) : Result * list Event :=
  let '(r, calls) := visitorResult b in
  if notNil (err r) then (r, calls)
  else
    let r := if flatten b then set_visitor (NewFlattenListVisitor (visitor r)) r else r in
    let helpers := [] in
    let helpers :=
      if defaultNamespace b then helpers ++ [VisitorFuncs.SetNamespace (namespace b)]
      else helpers in
    let helpers :=
      if requireNamespace b then helpers ++ [VisitorFuncs.RequireNamespace (namespace b)]
      else helpers in
    let helpers := helpers ++ [VisitorFuncs.FilterNamespace] in
    let helpers :=
      if latest b then helpers ++ [VisitorFuncs.RetrieveLazy] else helpers in
    (set_visitor (NewDecoratedVisitor (visitor r) helpers) r, calls).

(** ** Configurations *)

(** One call of a configuration method. *)
Inductive Call :=
| CallFilenameParam (ps : list string)
| CallURL (urls : list url_URL)
| CallStdin
| CallStream (r : io_Reader) (name : string)
| CallPath (ps : list string)
| CallResourceTypes (types : list string)
| CallSelectorParam (s : string)
| CallSelector (sel : option labels_Selector)
| CallNamespaceParam (ns : string)
| CallDefaultNamespace
| CallRequireNamespace
| CallSelectAllParam (all : bool)
| CallResourceTypeOrNameArgs (allowEmptySelector : bool) (args : list string)
| CallResourceTypeAndNameArgs (args : list string)
| CallFlatten
| CallLatest
| CallContinueOnError
| CallSingleResourceType.

Definition applyCall (b : Builder) (c : Call) : Builder :=
  match c with
  | CallFilenameParam ps => FilenameParam ps b
  | CallURL urls => URL urls b
  | CallStdin => Stdin b
  | CallStream r name => Stream r name b
  | CallPath ps => Path ps b
  | CallResourceTypes types => ResourceTypes types b
  | CallSelectorParam s => SelectorParam s b
  | CallSelector sel => Selector sel b
  | CallNamespaceParam ns => NamespaceParam ns b
  | CallDefaultNamespace => DefaultNamespace b
  | CallRequireNamespace => RequireNamespace b
  | CallSelectAllParam all => SelectAllParam all b
  | CallResourceTypeOrNameArgs allowEmptySelector args =>
      ResourceTypeOrNameArgs allowEmptySelector args b
  | CallResourceTypeAndNameArgs args => ResourceTypeAndNameArgs args b
  | CallFlatten => Flatten b
  | CallLatest => Latest b
  | CallContinueOnError => ContinueOnError b
  | CallSingleResourceType => SingleResourceType b
  end.

(** The builder a caller holds after [NewBuilder] and the calls [cs]. *)
Definition configure (cs : list Call) : Builder := fold_left applyCall cs NewBuilder.

(** The selection modes populated when evaluation starts. *)
Definition selectorMode (b : Builder) : bool := selectAll b || notNil (selector b).
Definition tupleMode (b : Builder) : bool := negb (length (resourceTuples b) =? 0).
Definition nameMode (b : Builder) : bool := negb (length (names b) =? 0).
Definition pathMode (b : Builder) : bool := negb (length (paths b) =? 0).

Definition populatedModes (b : Builder) : nat :=
  Nat.b2n (selectorMode b) + Nat.b2n (tupleMode b)
  + Nat.b2n (nameMode b) + Nat.b2n (pathMode b).

(** What every builder made by the configuration methods satisfies: the
    recorded errors are the builder's own, and names never come without a
    resource type. *)
Definition wellConfigured (b : Builder) : Prop :=
  Forall builderError (errs b) ∧ (names b ≠ [] → resources b ≠ []).

(** A configuration in path mode: nothing but path, URL or stream sources. *)
Definition pathConfiguration (b : Builder) : Prop :=
  errs b = [] ∧ selectAll b = false ∧ selector b = None
  ∧ resourceTuples b = [] ∧ names b = [] ∧ resources b = [] ∧ paths b ≠ [].

(** The errors of the conflict between "select all" and a selector. *)
Definition errSelectorAfterAll (s : string) : error :=
  Errorf "found non empty selector %q with previously set 'all' parameter. " [ArgString s].

Definition errAllAfterSelector : error :=
  Errorf "setting 'all' parameter but found a non empty selector. " [].

(** The error for arguments of which only some are in resource/name form. *)
Definition errMixedArgs : error :=
  Errorf "when passing arguments in resource/name form, all arguments must include the resource" [].

(** "At least one but not all arguments contain a slash". *)
Definition someButNotAllHaveSlash (args : list string) : Prop :=
  (∃ a, a ∈ args ∧ strings_Contains a "/"%char = true)
  ∧ (∃ a, a ∈ args ∧ strings_Contains a "/"%char = false).

(** [v] is the [Info] of [name] with the object its fetch returned. *)
Definition fetches (client : RESTClient) (mapping : RESTMapping)
    (ns name : string) (v : Visitor) : Prop :=
  ∃ obj, helper_Get client mapping ns name = inr obj
         ∧ v = InfoVisitor {| Client := client; Mapping := mapping; Namespace := ns;
                              Name := name; Object := Some obj |}.

(** The fetches of [ns], one after the other. *)
Definition getCalls (client : RESTClient) (mapping : RESTMapping)
    (selectorNamespace : string) (ns : list string) : list Event :=
  map (λ name, CallGet (NewInfo client mapping selectorNamespace name)) ns.

(** How a computation ends: an early return satisfies [P], a value that is
    carried on satisfies [Q]. *)
Definition ends {X A} (P : X → Prop) (Q : A → Prop) (m : Run X A) : Prop :=
  match m.1 with
  | inl x => P x
  | inr a => Q a
  end.

(** The error of the single-resource-type policy. *)
Definition errSingleResourceType : error :=
  Errorf "you may only specify a single resource type" [].

(** The [singular] flag by mode, in the specification's words: one tuple,
    one name, or one path source that is neither a directory nor a stream;
    false in selector mode. *)
Definition expectedSingular (b : Builder) : bool :=
  if selectorMode b then false
  else if tupleMode b then length (resourceTuples b) =? 1
  else if nameMode b then length (names b) =? 1
  else if pathMode b then negb (dir b) && negb (stream b) && (length (paths b) =? 1)
  else false.

(** The table and the set of canonical names that [resourceTupleMappings]
    keeps: every canonical name is a key of a mapping with that name, and
    every mapping of the table has its name in the set. *)
Definition canonicalOf (mappings : gmap string RESTMapping) (canonical : gset string) : Prop :=
  (∀ x, x ∈ canonical → ∃ v, mappings !! x = Some v ∧ Resource v = x)
  ∧ (∀ k v, mappings !! k = Some v → Resource v ∈ canonical).

(** ** Auxiliary notions for the properties of the whole builder *)

(** [strings.Count(s, sep)] for a one-byte [sep]. *)
Fixpoint strings_Count (s : string) (sep : ascii) : nat :=
  match s with
  | EmptyString => 0
  | String c rest => (if Ascii.eqb c sep then 1 else 0) + strings_Count rest sep
  end.

(** A tuple written as an argument, "resource/name". *)
Definition formatTuple (t : resourceTuple) : string :=
  tuple_Resource t +:+ "/" +:+ tuple_Name t.

(** A tuple that can be written as one argument: resource and name are not
    empty and hold no slash, and the resource holds no comma. *)
Definition plainTuple (t : resourceTuple) : Prop :=
  tuple_Resource t ≠ "" ∧ tuple_Name t ≠ ""
  ∧ strings_Contains (tuple_Resource t) "/"%char = false
  ∧ strings_Contains (tuple_Name t) "/"%char = false
  ∧ strings_Contains (tuple_Resource t) ","%char = false.

(** The errors of the loop over resource/name arguments. *)
Definition errManySlashes : error :=
  Errorf "arguments in resource/name form may not have more than one slash" [].

Definition errNotSingle : error :=
  Errorf "arguments in resource/name form must have a single resource and name" [].

(** The two builders agree on everything but the sources and the recorded
    errors: selector, resource types, namespace, names, tuples and policy
    flags. *)
Definition sameSelection (b b' : Builder) : Prop :=
  selector b' = selector b ∧ selectAll b' = selectAll b
  ∧ resources b' = resources b ∧ namespace b' = namespace b
  ∧ names b' = names b ∧ resourceTuples b' = resourceTuples b
  ∧ defaultNamespace b' = defaultNamespace b
  ∧ requireNamespace b' = requireNamespace b
  ∧ flatten b' = flatten b ∧ latest b' = latest b
  ∧ singleResourceType b' = singleResourceType b
  ∧ continueOnError b' = continueOnError b.

(** [b'] is [b] after [n] source arguments: each argument added one source
    or one error, behind those recorded before. *)
Definition accountsFor (n : nat) (b b' : Builder) : Prop :=
  length (paths b') + length (errs b') = length (paths b) + length (errs b) + n
  ∧ paths b `prefix_of` paths b' ∧ errs b `prefix_of` errs b'
  ∧ sameSelection b b'.

Definition isDirectoryVisitor (v : Visitor) : bool :=
  match v with DirectoryVisitor _ _ _ _ => true | _ => false end.

Definition isStreamVisitor (v : Visitor) : bool :=
  match v with NewStreamVisitor _ _ _ => true | _ => false end.

(** A source for one file or one URL. *)
Definition isFileOrURL (v : Visitor) : bool :=
  match v with PathVisitor _ _ | URLVisitor _ => true | _ => false end.

(** A visitor the source methods make. *)
Definition isSource (v : Visitor) : bool :=
  isDirectoryVisitor v || isStreamVisitor v || isFileOrURL v.

(** The flags [dir] and [stream] tell what the sources are. *)
Definition sourceFlags (b : Builder) : Prop :=
  Forall (λ v, isSource v = true) (paths b)
  ∧ dir b = existsb isDirectoryVisitor (paths b)
  ∧ stream b = existsb isStreamVisitor (paths b).

(** The two builders have the same sources. *)
Definition sameSources (b b' : Builder) : Prop :=
  paths b' = paths b ∧ dir b' = dir b ∧ stream b' = stream b.

(** The registry resolves the resource string [r] to [mapping]. *)
Definition resolvesTo (r : string) (mapping : RESTMapping) : Prop :=
  ∃ version kind,
    VersionAndKindForResource r = inr (version, kind)
    ∧ mapper_RESTMapping kind version = inr mapping.

(** The registry fails on [r] with the error [msg], at either step. *)
Definition failsWith (r : string) (msg : string) : Prop :=
  VersionAndKindForResource r = inl msg
  ∨ ∃ version kind,
      VersionAndKindForResource r = inr (version, kind)
      ∧ mapper_RESTMapping kind version = inl msg.

(** The calls that resolving [r] takes. *)
Definition resolutionCalls (r : string) : list Event :=
  match VersionAndKindForResource r with
  | inl _ => [CallVersionAndKindForResource r]
  | inr (version, kind) =>
      [CallVersionAndKindForResource r; CallRESTMapping kind version]
  end.

(** The selector visitors of selector mode, one per mapping. *)
Definition selectorsOf (b : Builder) (sel : labels_Selector)
    (mappings : list RESTMapping) (clients : list RESTClient) : list Visitor :=
  zip_with (λ mapping client,
              NewSelector client mapping
                (if namespaced mapping then namespace b else "") sel)
    mappings clients.

Definition errNothingToDo : error :=
  Errorf "you must provide one or more resources by argument or filename" [].

Definition errNamespaceEmpty : error :=
  Errorf "namespace may not be empty when retrieving a resource by name" [].

(** The two errors of tuple mode for a tuple without a mapping or without a
    client in the tables. *)
Definition isLookupError (e : error) : Prop :=
  ∃ args, e = Errorf "resource %q is not recognized: %v" args
          ∨ e = Errorf "could not find a client for resource %q" args.

(** A result has an error and nothing else, or no error, a visitor and at
    least one source. *)
Definition wellShaped (r : Result) : Prop :=
  match err r with
  | Some _ => visitor r = NilVisitor ∧ sources r = []
  | None => visitor r ≠ NilVisitor ∧ sources r ≠ []
  end.

(** A well-shaped result whose error, if any, is not a lookup error. *)
Definition sound (r : Result) : Prop :=
  wellShaped r ∧ ∀ e, err r = Some e → ¬ isLookupError e.

(** The calls that fetch an object. *)
Definition isGet (ev : Event) : bool :=
  match ev with CallGet _ => true | _ => false end.

(** Every call of the log satisfies [L]. *)
Definition logs {X A} (L : Event → Prop) (m : Run X A) : Prop := Forall L m.2.

(** What a fetch during evaluation is: the unfetched [Info] of one of the
    builder's names, in a name-mode evaluation with no sources and one
    resource type. *)
Definition nameFetch (b : Builder) (ev : Event) : Prop :=
  isGet ev = true →
  paths b = [] ∧ length (resources b) = 1
  ∧ ∃ client mapping ns name,
      name ∈ names b ∧ ev = CallGet (NewInfo client mapping ns name).

(** The [Info] that tuple mode makes for [t] from its tables. *)
Definition tupleInfo (b : Builder) (mappings : gmap string RESTMapping)
    (clients : gmap string RESTClient) (t : resourceTuple) (v : Visitor) : Prop :=
  ∃ mapping client,
    mappings !! tuple_Resource t = Some mapping
    ∧ clients !! clientKey mapping = Some client
    ∧ v = InfoVisitor
            (NewInfo client mapping
               (if namespaced mapping then namespace b else "") (tuple_Name t)).

(** The resource strings the registry was asked about, in order. *)
Definition asked (log : list Event) : list string :=
  omap (λ ev, match ev with
              | CallVersionAndKindForResource r => Some r
              | _ => None
              end) log.

End Model.

(** ** Test doubles for the collaborators *)

Module Fake.

Definition pods : RESTMapping :=
  {| Resource := "pods"; APIVersion := "v1"; Kind := "Pod";
     ScopeName := "namespace" |}.

Definition services : RESTMapping :=
  {| Resource := "services"; APIVersion := "v1"; Kind := "Service";
     ScopeName := "namespace" |}.

Definition nodes : RESTMapping :=
  {| Resource := "nodes"; APIVersion := "v1"; Kind := "Node";
     ScopeName := "root" |}.

Definition oneOf (s : string) (l : list string) : bool :=
  existsb (String.eqb s) l.

(** A registry that knows pods, services and nodes under their plural,
    singular and short names. *)
Definition versionAndKind (r : string) : string + (string * string) :=
  if oneOf r ["pods"; "pod"; "po"] then inr ("v1", "Pod")
  else if oneOf r ["services"; "service"; "svc"] then inr ("v1", "Service")
  else if oneOf r ["nodes"; "node"] then inr ("v1", "Node")
  else inl ("no resource " +:+ r +:+ " has been defined").

Definition restMapping (kind version : string) : string + RESTMapping :=
  if String.eqb kind "Pod" then inr pods
  else if String.eqb kind "Service" then inr services
  else if String.eqb kind "Node" then inr nodes
  else inl ("no kind " +:+ kind +:+ " is registered").

(** Selectors are lists of requirements; files "pod.json" and the
    directory "manifests" exist; the object named "missing" does not. *)
Definition collaborators (aliases : string → option (list string))
    (clientFor : RESTMapping → string + string) : Collaborators :=
  {| url_URL := string;
     io_Reader := unit;
     labels_Selector := list string;
     RESTClient := string;
     runtime_Object := string;
     url_Parse s := inr s;
     os_Stdin := tt;
     os_Stat p :=
       if String.eqb p "pod.json" then StatInfo false
       else if String.eqb p "manifests" then StatInfo true
       else StatNotExist;
     labels_Parse s :=
       if String.eqb s "" then inr [] else inr (strings_Split s ","%char);
     labels_Everything := [];
     selector_Empty sel := length sel =? 0;
     AliasesForResource := aliases;
     VersionAndKindForResource := versionAndKind;
     mapper_RESTMapping := restMapping;
     ClientForMapping := clientFor;
     helper_Get client mapping namespace name :=
       if String.eqb name "missing" then inl "not found"
       else inr (Resource mapping +:+ "/" +:+ name) |}.

Definition noAliases (arg : string) : option (list string) := None.

Definition clientOk (mapping : RESTMapping) : string + string :=
  inr ("client " +:+ APIVersion mapping).

Definition clientDown (mapping : RESTMapping) : string + string :=
  inl "connection refused".

(** The usual set-up: no aliases, clients can be made. *)
Definition std : Collaborators := collaborators noAliases clientOk.

(** The server cannot be reached. *)
Definition offline : Collaborators := collaborators noAliases clientDown.

(** A registry with an alias whose name has a slash. *)
Definition slashAlias (arg : string) : option (list string) :=
  if String.eqb arg "core/pods" then Some ["pods"] else None.

Definition aliased : Collaborators := collaborators slashAlias clientOk.

(** A registry in which "all" stands for pods and services. *)
Definition allAlias (arg : string) : option (list string) :=
  if String.eqb arg "all" then Some ["pods"; "services"] else None.

Definition shorthand : Collaborators := collaborators allAlias clientOk.

End Fake.

(** * Properties *)

(** ** SplitResourceArgument *)

Lemma strings_Split_nonempty s sep : strings_Split s sep ≠ [].
Proof.
  destruct s as [|c rest]; simpl; [done|].
  destruct (Ascii.eqb c sep); [done|].
  by destruct (strings_Split rest sep).
Qed.

Lemma first_occurrences_elem_of l x : x ∈ first_occurrences l ↔ x ∈ l.
Proof.
  revert x. induction l as [|y l IH]; intros x; simpl; [done|].
  rewrite !elem_of_cons, list_elem_of_filter, IH.
  destruct (decide (x = y)); tauto.
Qed.

Lemma first_occurrences_NoDup l : NoDup (first_occurrences l).
Proof.
  induction l as [|y l IH]; simpl; [constructor|].
  constructor.
  - rewrite list_elem_of_filter. intros [Hne _]. by apply Hne.
  - by apply NoDup_filter.
Qed.

Lemma filter_all_true {A} (P : A → Prop) `{∀ x, Decision (P x)} (l : list A) :
  (∀ x, P x) → filter P l = l.
Proof.
  intros HP. induction l as [|x l IH]; [done|].
  by rewrite filter_cons_True, IH.
Qed.

Lemma splitLoop_spec segs set out :
  splitLoop segs set out = out ++ filter (λ s, s ∉ set) (first_occurrences segs).
Proof.
  revert set out. induction segs as [|s rest IH]; intros set out; simpl.
  - by rewrite app_nil_r.
  - destruct (decide (s ∈ set)) as [Hin|Hnin].
    + rewrite IH, filter_cons_False by (intros Hn; by apply Hn).
      f_equal. rewrite list_filter_filter.
      apply list_filter_iff. intros x. split; [|tauto].
      intros Hx. split; [done|]. intros ->. done.
    + rewrite IH, filter_cons_True by done.
      rewrite <- app_assoc. simpl. do 2 f_equal.
      rewrite list_filter_filter.
      apply list_filter_iff. intros x.
      rewrite elem_of_union, elem_of_singleton. tauto.
Qed.

Lemma SplitResourceArgument_first_occurrences arg :
  SplitResourceArgument arg = first_occurrences (strings_Split arg ","%char).
Proof.
  unfold SplitResourceArgument. rewrite splitLoop_spec. simpl.
  apply filter_all_true. intros x. apply not_elem_of_empty.
Qed.

Lemma SplitResourceArgument_nonempty arg : SplitResourceArgument arg ≠ [].
Proof.
  rewrite SplitResourceArgument_first_occurrences.
  pose proof (strings_Split_nonempty arg ","%char) as H.
  by destruct (strings_Split arg ","%char).
Qed.

(** C7: for every argument string, [SplitResourceArgument] returns the
    distinct comma-separated segments in order of first occurrence: it is
    the first-occurrence de-duplication of the segments, has no duplicates
    and the same members as the segments; in particular
    "pods,services,pods" gives ["pods"; "services"]. *)
Theorem SplitResourceArgument_distinct_in_order :
  (∀ arg : string,
      SplitResourceArgument arg = first_occurrences (strings_Split arg ","%char)
      ∧ NoDup (SplitResourceArgument arg)
      ∧ (∀ s, s ∈ SplitResourceArgument arg ↔ s ∈ strings_Split arg ","%char))
  ∧ SplitResourceArgument "pods,services,pods" = ["pods"; "services"].
Proof.
  split; [|by vm_compute].
  intros arg. rewrite SplitResourceArgument_first_occurrences.
  split; [done|]. split.
  - apply first_occurrences_NoDup.
  - intros s. apply first_occurrences_elem_of.
Qed.

(** ** The builder *)

Section Properties.
Context `{C : Collaborators}.

Implicit Types (b : Builder) (r : Result) (e : error).

(** *** Accumulated errors and [Do] on a failed result *)

(** C2: when errors were recorded during accumulation, [visitorResult]
    returns a result that carries the aggregate of exactly those errors;
    no mode branch runs: no call is made to the mapper or to a client, and
    the result has no visitor and no sources. *)
Theorem visitorResult_accumulated_errors b :
  errs b ≠ [] →
  visitorResult b
  = ({| singular := false; err := Some (Aggregate (errs b));
        visitor := NilVisitor; sources := [] |}, []).
Proof.
  intros Hne. unfold visitorResult.
  destruct (errs b) as [|e0 es] eqn:Herrs; [done|]. reflexivity.
Qed.

(** C10: when [visitorResult] produces a result with an error, [Do]
    returns that very result (and has made the same calls): nothing is
    wrapped around it and no field is changed. *)
Theorem Do_returns_failed_result b :
  err (visitorResult b).1 ≠ None → Do b = visitorResult b.
Proof.
  intros Herr. unfold Do.
  destruct (visitorResult b) as [r calls]. simpl in Herr.
  destruct (err r); [reflexivity | done].
Qed.

(** *** Final assembly *)

(** The decorators [Do] attaches, in order. *)
Lemma Do_error_free b :
  err (visitorResult b).1 = None →
  Do b
  = (set_visitor
       (NewDecoratedVisitor
          (if flatten b then NewFlattenListVisitor (visitor (visitorResult b).1)
           else visitor (visitorResult b).1)
          ((if defaultNamespace b then [VisitorFuncs.SetNamespace (namespace b)] else [])
           ++ (if requireNamespace b then [VisitorFuncs.RequireNamespace (namespace b)] else [])
           ++ [VisitorFuncs.FilterNamespace]
           ++ (if latest b then [VisitorFuncs.RetrieveLazy] else [])))
       (visitorResult b).1,
     (visitorResult b).2).
Proof.
  intros Herr. unfold Do.
  destruct (visitorResult b) as [r calls]. simpl in *. rewrite Herr. simpl.
  destruct (flatten b), (defaultNamespace b), (requireNamespace b), (latest b);
    reflexivity.
Qed.

Lemma visitorResult_paths b :
  pathConfiguration b → visitorResult b = returned (visitPaths b).
Proof.
  intros (He & Hall & Hsel & Ht & Hn & Hr & Hp). unfold visitorResult, withSelectAll.
  rewrite He, Hall, Hsel, Ht, Hn. simpl.
  destruct (paths b); [done | reflexivity].
Qed.

(** C6, amended: on an error-free base result, [Do] wraps the visitor in
    flatten whenever flatten is requested, and then in one decorator that
    runs namespace-default (if requested), namespace-require (if
    requested), namespace-filter (always) and the lazy refresh whenever
    latest is requested, in this order; [Do] does not look at what the mode
    branch already applied: in path mode with latest and flatten both set
    the visitor is flattened, eagerly refreshed, flattened again and
    decorated with the lazy refresh last. *)
Theorem Do_overlay_order b :
  (err (visitorResult b).1 = None →
   visitor (Do b).1
   = NewDecoratedVisitor
       (if flatten b then NewFlattenListVisitor (visitor (visitorResult b).1)
        else visitor (visitorResult b).1)
       ((if defaultNamespace b then [VisitorFuncs.SetNamespace (namespace b)] else [])
        ++ (if requireNamespace b then [VisitorFuncs.RequireNamespace (namespace b)] else [])
        ++ [VisitorFuncs.FilterNamespace]
        ++ (if latest b then [VisitorFuncs.RetrieveLazy] else []))
   ∧ singular (Do b).1 = singular (visitorResult b).1
   ∧ err (Do b).1 = None
   ∧ sources (Do b).1 = sources (visitorResult b).1
   ∧ (Do b).2 = (visitorResult b).2)
  ∧ (pathConfiguration b → latest b = true → flatten b = true →
     visitor (Do b).1
     = NewDecoratedVisitor
         (NewFlattenListVisitor
            (NewDecoratedVisitor
               (NewFlattenListVisitor
                  (if continueOnError b then EagerVisitorList (paths b)
                   else VisitorList (paths b)))
               [VisitorFuncs.RetrieveLatest]))
         ((if defaultNamespace b then [VisitorFuncs.SetNamespace (namespace b)] else [])
          ++ (if requireNamespace b then [VisitorFuncs.RequireNamespace (namespace b)] else [])
          ++ [VisitorFuncs.FilterNamespace; VisitorFuncs.RetrieveLazy])).
Proof.
  split.
  - intros Herr. rewrite (Do_error_free b Herr). simpl. by rewrite Herr.
  - intros Hpath Hlatest Hflatten.
    assert (Hres : visitorResult b
                   = ({| singular := negb (dir b) && negb (stream b) && (length (paths b) =? 1);
                         err := None;
                         visitor := NewDecoratedVisitor
                                      (NewFlattenListVisitor
                                         (if continueOnError b then EagerVisitorList (paths b)
                                          else VisitorList (paths b)))
                                      [VisitorFuncs.RetrieveLatest];
                         sources := paths b |}, [])).
    { rewrite (visitorResult_paths b Hpath).
      destruct Hpath as (_ & _ & _ & _ & _ & Hr & _).
      unfold visitPaths. rewrite Hr, Hlatest, Hflatten. reflexivity. }
    rewrite Do_error_free by (by rewrite Hres).
    rewrite Hres, Hlatest, Hflatten. reflexivity.
Qed.

(** *** "Select all" against a selector *)

(** C8: for a string that parses to a non-empty selector, [SelectorParam]
    after [SelectAllParam true] and [SelectAllParam true] after
    [SelectorParam] both record a configuration error (from a builder
    without the other setting, exactly the one error of the conflict; from
    any builder, at least one more error than before); for a string that
    parses to an empty selector, [SelectorParam] returns the builder
    unchanged, whatever [selectAll] is. *)
Theorem selectAll_selector_conflict b (s : string) (sel : labels_Selector) :
  labels_Parse s = inr sel →
  if selector_Empty sel then SelectorParam s b = b
  else
    (selector b = None →
     SelectorParam s (SelectAllParam true b)
     = set_errs (errs b ++ [errSelectorAfterAll s]) (set_selectAll true b))
    ∧ (selectAll b = false →
       SelectAllParam true (SelectorParam s b)
       = set_errs (errs b ++ [errAllAfterSelector]) (set_selector (Some sel) b))
    ∧ (∃ e more, ConfigurationError e ∧ Forall ConfigurationError more
                 ∧ errs (SelectorParam s (SelectAllParam true b)) = errs b ++ e :: more)
    ∧ (∃ e more, ConfigurationError e ∧ Forall ConfigurationError more
                 ∧ errs (SelectAllParam true (SelectorParam s b)) = errs b ++ e :: more).
Proof.
  intros Hparse. destruct (selector_Empty sel) eqn:Hempty.
  - unfold SelectorParam. by rewrite Hparse, Hempty.
  - unfold SelectorParam, SelectAllParam, Selector. split_and!.
    + intros Hnil. rewrite Hnil. simpl. by rewrite Hparse, Hempty.
    + intros Hall. rewrite Hparse, Hempty, Hall. reflexivity.
    + rewrite Hparse, Hempty.
      destruct (selector b) as [sel0|] eqn:Hsel, (selectAll b) eqn:Hall;
        simpl; rewrite ?Hsel, ?Hall; simpl.
      * exists errAllAfterSelector, [errSelectorAfterAll s].
        split_and!; [exact I | by apply Forall_singleton | by rewrite <- app_assoc].
      * exists errAllAfterSelector, []. by split_and!.
      * exists (errSelectorAfterAll s), []. by split_and!.
      * exists (errSelectorAfterAll s), []. by split_and!.
    + rewrite Hparse, Hempty.
      destruct (selector b) as [sel0|] eqn:Hsel, (selectAll b) eqn:Hall;
        simpl; rewrite ?Hsel, ?Hall; simpl.
      * exists (errSelectorAfterAll s), [errAllAfterSelector].
        split_and!; [exact I | by apply Forall_singleton | by rewrite <- app_assoc].
      * exists errAllAfterSelector, []. by split_and!.
      * exists (errSelectorAfterAll s), []. by split_and!.
      * exists errAllAfterSelector, []. by split_and!.
Qed.

(** *** Arguments of which only some are in resource/name form *)

Lemma hasSlash_count (args : list string) (n : nat) :
  fold_left (λ n s, if strings_Contains s "/"%char then S n else n) args n
  = n + length (filter (λ s, strings_Contains s "/"%char = true) args).
Proof.
  revert n. induction args as [|a args IH]; intros n; simpl; [lia|].
  rewrite IH. destruct (strings_Contains a "/"%char) eqn:Ha.
  - rewrite filter_cons_True by done. simpl. lia.
  - rewrite filter_cons_False by (by rewrite Ha). lia.
Qed.

Lemma hasCombinedTypeArgs_mixed (args : list string) :
  someButNotAllHaveSlash args →
  hasCombinedTypeArgs args = (true, Some errMixedArgs).
Proof.
  intros [(a1 & Hin1 & Ha1) (a2 & Hin2 & Ha2)].
  unfold hasCombinedTypeArgs. rewrite hasSlash_count. simpl.
  set (P := λ s : string, strings_Contains s "/"%char = true).
  assert (Hpos : 0 < length (filter P args)).
  { assert (a1 ∈ filter P args) as Hx by (by apply list_elem_of_filter).
    destruct (filter P args); [by apply elem_of_nil in Hx | simpl; lia]. }
  assert (Hlt : length (filter P args) < length args).
  { clear Hin1 Ha1 Hpos. induction args as [|x args IH]; [by apply elem_of_nil in Hin2|].
    apply elem_of_cons in Hin2 as [<-|Hin2].
    - rewrite filter_cons_False by (unfold P; by rewrite Ha2).
      pose proof (length_filter P args). simpl. lia.
    - specialize (IH Hin2). destruct (decide (P x)).
      + rewrite filter_cons_True by done. simpl. lia.
      + rewrite filter_cons_False by done. simpl. lia. }
  destruct (0 <? length (filter P args)) eqn:H0; [|apply Nat.ltb_ge in H0; lia].
  destruct (length (filter P args) =? length args) eqn:H1;
    [apply Nat.eqb_eq in H1; lia|]. reflexivity.
Qed.

Lemma replaceAliases_map (args : list string) :
  replaceAliases args
  = map (λ arg, match AliasesForResource arg with
                | Some aliases => strings_Join aliases ","
                | None => arg
                end) args.
Proof.
  unfold replaceAliases.
  enough (∀ acc, fold_left
            (λ replaced arg,
               replaced ++ [match AliasesForResource arg with
                            | Some aliases => strings_Join aliases ","
                            | None => arg
                            end]) args acc
          = acc ++ map (λ arg, match AliasesForResource arg with
                               | Some aliases => strings_Join aliases ","
                               | None => arg
                               end) args) as H by apply (H []).
  induction args as [|a args IH]; intros acc; simpl.
  - by rewrite app_nil_r.
  - by rewrite IH, <- app_assoc.
Qed.

Lemma replaceAliases_no_alias (args : list string) :
  (∀ a, a ∈ args → AliasesForResource a = None) → replaceAliases args = args.
Proof.
  rewrite replaceAliases_map. induction args as [|a args IH]; intros Hno; simpl; [done|].
  rewrite (Hno a) by (apply elem_of_cons; by left).
  f_equal. apply IH. intros a' Ha'. apply Hno. apply elem_of_cons. by right.
Qed.

(** C9, amended: the check for mixed arguments runs on the arguments after
    alias replacement. When at least one but not all of the replaced
    arguments contain a slash, [ResourceTypeOrNameArgs] records the one
    error and changes nothing else: tuples, names and resource types are as
    before. In particular this holds for the arguments as passed when none
    of them is an alias. *)
Theorem ResourceTypeOrNameArgs_mixed b (allowEmptySelector : bool) (args : list string) :
  (someButNotAllHaveSlash (replaceAliases args)
   ∨ (someButNotAllHaveSlash args ∧ ∀ a, a ∈ args → AliasesForResource a = None)) →
  ResourceTypeOrNameArgs allowEmptySelector args b = set_errs (errs b ++ [errMixedArgs]) b
  ∧ resourceTuples (ResourceTypeOrNameArgs allowEmptySelector args b) = resourceTuples b
  ∧ names (ResourceTypeOrNameArgs allowEmptySelector args b) = names b
  ∧ resources (ResourceTypeOrNameArgs allowEmptySelector args b) = resources b.
Proof.
  intros Hmixed.
  assert (Hm : someButNotAllHaveSlash (replaceAliases args)).
  { destruct Hmixed as [H|[H Hno]]; [done|]. by rewrite replaceAliases_no_alias. }
  assert (Heq : ResourceTypeOrNameArgs allowEmptySelector args b
                = set_errs (errs b ++ [errMixedArgs]) b).
  { unfold ResourceTypeOrNameArgs. by rewrite (hasCombinedTypeArgs_mixed _ Hm). }
  rewrite Heq. by repeat split.
Qed.

(** *** Name mode *)

Lemma resourceMappings_one b (r version kind : string) (mapping : RESTMapping) :
  resources b = [r] →
  VersionAndKindForResource r = inr (version, kind) →
  mapper_RESTMapping kind version = inr mapping →
  resourceMappings b
  = (inr [mapping], [CallVersionAndKindForResource r; CallRESTMapping kind version]).
Proof.
  intros Hr Hvk Hm. unfold resourceMappings. rewrite Hr. simpl.
  unfold callVersionAndKindForResource, callRESTMapping, call.
  rewrite Hvk. simpl. rewrite Hm. reflexivity.
Qed.

Lemma nameVisitors_all_fetched (isSingular : bool) client mapping (sns : string)
    (ns : list string) (fetched acc : list Visitor) :
  Forall2 (fetches client mapping sns) ns fetched →
  nameVisitors isSingular client mapping sns ns acc
  = (inr (acc ++ fetched), getCalls client mapping sns ns).
Proof.
  intros H. revert acc. induction H as [|name v ns fetched (obj & Hget & ->) _ IH];
    intros acc; simpl.
  - by rewrite app_nil_r.
  - unfold Info_Get, call. simpl. rewrite Hget. simpl.
    rewrite IH. by rewrite <- app_assoc.
Qed.

Lemma nameVisitors_fetch_fails (isSingular : bool) client mapping (sns : string)
    (before : list string) (name : string) (rest : list string) (msg : string)
    (fetched acc : list Visitor) :
  Forall2 (fetches client mapping sns) before fetched →
  helper_Get client mapping sns name = inl msg →
  nameVisitors isSingular client mapping sns (before ++ name :: rest) acc
  = (inl (errorResult isSingular (Foreign msg)),
     getCalls client mapping sns (before ++ [name])).
Proof.
  intros H Hfail. revert acc.
  induction H as [|name0 v before fetched (obj & Hget & ->) _ IH]; intros acc; simpl.
  - unfold Info_Get, call. simpl. by rewrite Hfail.
  - unfold Info_Get, call. simpl. rewrite Hget. simpl. by rewrite IH.
Qed.

Lemma visitorResult_ignores_continueOnError_in_name_mode b :
  selectAll b = false → selector b = None → resourceTuples b = [] → names b ≠ [] →
  visitorResult (ContinueOnError b) = visitorResult b.
Proof.
  intros Hall Hsel Ht Hn. destruct b. simpl in *. subst.
  unfold visitorResult, withSelectAll. simpl.
  destruct names0; [done|]. reflexivity.
Qed.

(** C4: in name mode (one resource type that resolves, a client, and a
    namespace when the type is namespaced) evaluation fetches every name,
    one [Info] per name, while the result is built: when every fetch
    succeeds the result lists the fetched infos; when a fetch fails the
    result carries that error and no visitor, and the names after it are
    not fetched. Setting continue-on-error changes nothing. *)
Theorem visitorResult_name_mode_fetches_inline b (r version kind : string)
    (mapping : RESTMapping) (client : RESTClient) :
  errs b = [] → selectAll b = false → selector b = None →
  resourceTuples b = [] → paths b = [] → names b ≠ [] →
  resources b = [r] →
  VersionAndKindForResource r = inr (version, kind) →
  mapper_RESTMapping kind version = inr mapping →
  ClientForMapping mapping = inr client →
  (namespaced mapping = true → namespace b ≠ "") →
  let sns := if namespaced mapping then namespace b else "" in
  let resolution :=
    [CallVersionAndKindForResource r; CallRESTMapping kind version;
     CallClientForMapping mapping] in
  (∀ fetched,
      Forall2 (fetches client mapping sns) (names b) fetched →
      visitorResult b
      = ({| singular := length (names b) =? 1; err := None;
            visitor := VisitorList fetched; sources := fetched |},
         resolution ++ getCalls client mapping sns (names b)))
  ∧ (∀ before name rest msg fetched,
        names b = before ++ name :: rest →
        Forall2 (fetches client mapping sns) before fetched →
        helper_Get client mapping sns name = inl msg →
        visitorResult b
        = ({| singular := length (names b) =? 1; err := Some (Foreign msg);
              visitor := NilVisitor; sources := [] |},
           resolution ++ getCalls client mapping sns (before ++ [name])))
  ∧ visitorResult (ContinueOnError b) = visitorResult b.
Proof.
  intros He Hall Hsel Ht Hp Hn Hr Hvk Hm Hc Hns sns resolution.
  assert (Hstart : ∀ k,
             nameVisitors (length (names b) =? 1) client mapping sns (names b) [] = k →
             visitorResult b
             = returned
                 (bind (k.1, resolution ++ k.2)
                    (λ visitors,
                       ret {| singular := length (names b) =? 1; err := None;
                              visitor := VisitorList visitors; sources := visitors |}))).
  { intros k <-. unfold visitorResult, withSelectAll.
    rewrite He, Hall, Hsel, Ht. simpl.
    destruct (names b) as [|n0 ns0] eqn:Hnames; [done|].
    cbn [length Nat.eqb negb].
    unfold visitNames. rewrite Hp, Hr, Hnames.
    rewrite (resourceMappings_one b r version kind mapping Hr Hvk Hm).
    cbn [length Nat.eqb Nat.ltb Nat.leb negb orExit bind].
    unfold callClientForMapping, call. rewrite Hc.
    cbn [orExit bind].
    assert (Hguard : namespaced mapping && (String.length (namespace b) =? 0) = false).
    { destruct (namespaced mapping); [|done]. simpl.
      destruct (namespace b); [by specialize (Hns eq_refl) | done]. }
    rewrite Hguard.
    replace (if negb (namespaced mapping) then "" else namespace b) with sns
      by (unfold sns; by destruct (namespaced mapping)).
    destruct (nameVisitors _ client mapping sns (n0 :: ns0) []) as [[res|vs] calls];
      reflexivity. }
  split_and!.
  - intros fetched Hf.
    rewrite (Hstart _ (nameVisitors_all_fetched _ _ _ _ _ _ [] Hf)).
    unfold returned, bind, ret. simpl. by rewrite app_nil_r.
  - intros before name rest msg fetched Hnames Hf Hfail.
    pose proof (nameVisitors_fetch_fails (length (names b) =? 1) _ _ _ _ _ rest _ _ [] Hf Hfail)
      as Hk.
    rewrite <- Hnames in Hk. rewrite (Hstart _ Hk). reflexivity.
  - by apply visitorResult_ignores_continueOnError_in_name_mode.
Qed.

(** *** Mixed selection modes *)

Lemma wellConfigured_frame b b' :
  errs b' = errs b → names b' = names b → resources b' = resources b →
  wellConfigured b → wellConfigured b'.
Proof. intros He Hn Hr [H1 H2]. split; rewrite ?He, ?Hn, ?Hr; done. Qed.

Lemma wellConfigured_error b b' (format : string) (args : list fmtArg) :
  errs b' = errs b ++ [Errorf format args] →
  names b' = names b → resources b' = resources b →
  wellConfigured b → wellConfigured b'.
Proof.
  intros He Hn Hr [H1 H2]. split; rewrite ?He, ?Hn, ?Hr; [|done].
  apply Forall_app. split; [done|]. by apply Forall_singleton.
Qed.

Lemma wellConfigured_named b (ns types : list string) :
  types ≠ [] → wellConfigured b →
  wellConfigured (ResourceTypes types (set_names ns b)).
Proof.
  intros Hty [H1 _]. split; simpl; [done|].
  intros _ Happ. apply app_eq_nil in Happ as [_ ?]. done.
Qed.

Lemma wellConfigured_ResourceTypes b (types : list string) :
  wellConfigured b → wellConfigured (ResourceTypes types b).
Proof.
  intros [H1 H2]. split; simpl; [done|].
  intros Hn Happ. apply app_eq_nil in Happ as [? _]. by apply H2.
Qed.

Lemma wellConfigured_fold {A} (f : Builder → A → Builder) (l : list A) b :
  (∀ b a, wellConfigured b → wellConfigured (f b a)) →
  wellConfigured b → wellConfigured (fold_left f l b).
Proof.
  intros Hf. revert b. induction l as [|a l IH]; intros b Hb; simpl; [done|].
  apply IH. by apply Hf.
Qed.

Lemma wellConfigured_Stream b (r : io_Reader) (name : string) :
  wellConfigured b → wellConfigured (Stream r name b).
Proof. by apply wellConfigured_frame. Qed.

Lemma wellConfigured_URL b (urls : list url_URL) :
  wellConfigured b → wellConfigured (URL urls b).
Proof.
  apply wellConfigured_fold. intros b0 u. by apply wellConfigured_frame.
Qed.

Lemma wellConfigured_Path b (ps : list string) :
  wellConfigured b → wellConfigured (Path ps b).
Proof.
  apply wellConfigured_fold. intros b0 p. unfold Path1.
  destruct (os_Stat p) as [|e|[|]].
  - by apply wellConfigured_error with (format := "the path %q does not exist")
                                       (args := [ArgString p]).
  - by apply wellConfigured_error with (format := "the path %q cannot be accessed: %v")
                                       (args := [ArgString p; ArgError e]).
  - by apply wellConfigured_frame.
  - by apply wellConfigured_frame.
Qed.

Lemma wellConfigured_FilenameParam b (ps : list string) :
  wellConfigured b → wellConfigured (FilenameParam ps b).
Proof.
  apply wellConfigured_fold. intros b0 s Hb0. unfold FilenameParam1.
  destruct (String.eqb s "-"); [by apply wellConfigured_Stream|].
  destruct (strings_IndexIsZero s "http://" || strings_IndexIsZero s "https://").
  - destruct (url_Parse s) as [e|u].
    + by apply wellConfigured_error
        with (b := b0) (format := "the URL passed to filename %q is not valid: %v")
             (args := [ArgString s; ArgError e]).
    + by apply wellConfigured_URL.
  - by apply wellConfigured_Path.
Qed.

Lemma wellConfigured_SelectorParam b (s : string) :
  wellConfigured b → wellConfigured (SelectorParam s b).
Proof.
  intros Hb. unfold SelectorParam.
  destruct (labels_Parse s) as [e|sel].
  - by apply wellConfigured_error
      with (b := b) (format := "the provided selector %q is not valid: %v")
           (args := [ArgString s; ArgError e]).
  - destruct (selector_Empty sel); [done|].
    destruct (selectAll b).
    + by apply wellConfigured_error
        with (b := b)
             (format := "found non empty selector %q with previously set 'all' parameter. ")
             (args := [ArgString s]).
    + by apply wellConfigured_frame with (b := b).
Qed.

Lemma wellConfigured_SelectAllParam b (all : bool) :
  wellConfigured b → wellConfigured (SelectAllParam all b).
Proof.
  intros Hb. unfold SelectAllParam.
  destruct (all && notNil (selector b)).
  - by apply wellConfigured_error
      with (b := b) (format := "setting 'all' parameter but found a non empty selector. ")
           (args := []).
  - by apply wellConfigured_frame with (b := b).
Qed.

Lemma wellConfigured_combinedTuples (args : list string) b :
  wellConfigured b → wellConfigured (combinedTuples args b).
Proof.
  revert b. induction args as [|s args IH]; intros b Hb; simpl; [done|].
  destruct (negb (length (strings_Split s "/"%char) =? 2)).
  { by apply wellConfigured_error
      with (b := b)
           (format := "arguments in resource/name form may not have more than one slash")
           (args := []). }
  destruct ((String.length (nth 0 (strings_Split s "/"%char) "") =? 0)
            || (String.length (nth 1 (strings_Split s "/"%char) "") =? 0)
            || negb (length (SplitResourceArgument (nth 0 (strings_Split s "/"%char) "")) =? 1)).
  { by apply wellConfigured_error
      with (b := b)
           (format := "arguments in resource/name form must have a single resource and name")
           (args := []). }
  apply IH. by apply wellConfigured_frame with (b := b).
Qed.

Lemma wellConfigured_ResourceTypeOrNameArgs b (allowEmptySelector : bool)
    (args : list string) :
  wellConfigured b → wellConfigured (ResourceTypeOrNameArgs allowEmptySelector args b).
Proof.
  intros Hb. unfold ResourceTypeOrNameArgs.
  set (args' := replaceAliases args). clearbody args'.
  assert (Hmixed : ∀ args0 e, hasCombinedTypeArgs args0 = (true, Some e) → e = errMixedArgs).
  { intros args0 e. unfold hasCombinedTypeArgs, errMixedArgs.
    repeat (match goal with |- context [if ?c then _ else _] => destruct c end);
      congruence. }
  destruct (hasCombinedTypeArgs args') as [[|] [e|]] eqn:Hcombined.
  - rewrite (Hmixed _ _ Hcombined).
    by apply wellConfigured_error with (b := b) (format := "when passing arguments in resource/name form, all arguments must include the resource") (args := []).
  - by apply wellConfigured_combinedTuples.
  - destruct (2 <? length args'); [|destruct (length args' =? 2); [|destruct (length args' =? 1); [|destruct (length args' =? 0)]]].
    + apply wellConfigured_named; [apply SplitResourceArgument_nonempty | done].
    + apply wellConfigured_named; [apply SplitResourceArgument_nonempty | done].
    + destruct (negb (notNil (selector (ResourceTypes _ b))) && allowEmptySelector).
      * apply wellConfigured_frame with (b := ResourceTypes (SplitResourceArgument (nth 0 args' "")) b);
          [done..|]. by apply wellConfigured_ResourceTypes.
      * by apply wellConfigured_ResourceTypes.
    + done.
    + by apply wellConfigured_error with (b := b) (format := "when passing arguments, must be resource or resource and name") (args := []).
  - destruct (2 <? length args'); [|destruct (length args' =? 2); [|destruct (length args' =? 1); [|destruct (length args' =? 0)]]].
    + apply wellConfigured_named; [apply SplitResourceArgument_nonempty | done].
    + apply wellConfigured_named; [apply SplitResourceArgument_nonempty | done].
    + destruct (negb (notNil (selector (ResourceTypes _ b))) && allowEmptySelector).
      * apply wellConfigured_frame with (b := ResourceTypes (SplitResourceArgument (nth 0 args' "")) b);
          [done..|]. by apply wellConfigured_ResourceTypes.
      * by apply wellConfigured_ResourceTypes.
    + done.
    + by apply wellConfigured_error with (b := b) (format := "when passing arguments, must be resource or resource and name") (args := []).
Qed.

Lemma wellConfigured_ResourceTypeAndNameArgs b (args : list string) :
  wellConfigured b → wellConfigured (ResourceTypeAndNameArgs args b).
Proof.
  intros Hb. unfold ResourceTypeAndNameArgs.
  destruct (length args =? 2); [|destruct (length args =? 0)].
  - apply wellConfigured_named; [apply SplitResourceArgument_nonempty | done].
  - done.
  - by apply wellConfigured_error with (b := b) (format := "when passing arguments, must be resource and name") (args := []).
Qed.

Lemma wellConfigured_applyCall b (c : Call) :
  wellConfigured b → wellConfigured (applyCall b c).
Proof.
  intros Hb. destruct c; simpl.
  - by apply wellConfigured_FilenameParam.
  - by apply wellConfigured_URL.
  - by apply wellConfigured_Stream.
  - by apply wellConfigured_Stream.
  - by apply wellConfigured_Path.
  - by apply wellConfigured_ResourceTypes.
  - by apply wellConfigured_SelectorParam.
  - by apply wellConfigured_frame with (b := b).
  - by apply wellConfigured_frame with (b := b).
  - by apply wellConfigured_frame with (b := b).
  - by apply wellConfigured_frame with (b := b).
  - by apply wellConfigured_SelectAllParam.
  - by apply wellConfigured_ResourceTypeOrNameArgs.
  - by apply wellConfigured_ResourceTypeAndNameArgs.
  - by apply wellConfigured_frame with (b := b).
  - by apply wellConfigured_frame with (b := b).
  - by apply wellConfigured_frame with (b := b).
  - by apply wellConfigured_frame with (b := b).
Qed.

Lemma wellConfigured_configure (cs : list Call) : wellConfigured (configure cs).
Proof.
  unfold configure. apply wellConfigured_fold; [apply wellConfigured_applyCall|].
  split; [constructor | done].
Qed.

Lemma visitorResult_mixed_modes b :
  wellConfigured b → 2 ≤ populatedModes b →
  ∃ r e, visitorResult b = (r, []) ∧ err r = Some e ∧ ConfigurationError e
         ∧ visitor r = NilVisitor ∧ sources r = [].
Proof.
  intros [Herrs Hnames].
  unfold populatedModes, selectorMode, tupleMode, nameMode, pathMode,
    visitorResult, withSelectAll.
  destruct b as [errs0 paths0 stream0 dir0 selector0 selectAll0 resources0
                   namespace0 names0 tuples0 dns rns fl la srt coe].
  simpl in *.
  destruct errs0 as [|e0 errs0].
  - destruct selectAll0, selector0 as [sel|], tuples0 as [|t ts], names0 as [|n ns],
      paths0 as [|p ps], resources0 as [|r0 rs]; simpl; intros Hmodes;
      try lia; try (by destruct Hnames);
      unfold visitSelector, visitTuples, visitNames, visitPaths; simpl;
      try (match goal with |- context [selector_Empty ?x] => destruct (selector_Empty x) end);
      simpl; eexists _, _; (split_and!; [reflexivity | reflexivity | exact I | reflexivity | reflexivity]).
  - intros _. simpl. eexists _, _.
    split_and!; [reflexivity | reflexivity | exact Herrs | reflexivity | reflexivity].
Qed.

(** C1: whatever calls configured the builder, when two or more of the
    selection modes (a selector or "select all", resource/name tuples,
    names, path/URL/stdin sources) are populated at evaluation,
    [visitorResult] returns a result whose error is a configuration error,
    without a visitor, and has called neither the mapper nor a client:
    nothing was resolved, constructed or fetched. *)
Theorem visitorResult_rejects_mixed_modes (cs : list Call) :
  2 ≤ populatedModes (configure cs) →
  ∃ r e, visitorResult (configure cs) = (r, [])
         ∧ err r = Some e ∧ ConfigurationError e
         ∧ visitor r = NilVisitor ∧ sources r = [].
Proof.
  apply visitorResult_mixed_modes, wellConfigured_configure.
Qed.

(** *** The single-resource-type policy *)

Lemma resourceMappingsLoop_outcome (rs : list string) (acc : list RESTMapping) :
  ends (λ e, ∃ msg, e = Foreign msg) (λ l, length l = length acc + length rs)
    (resourceMappingsLoop rs acc).
Proof.
  revert acc. induction rs as [|r rs IH]; intros acc; simpl.
  - unfold ends. simpl. lia.
  - unfold callVersionAndKindForResource, callRESTMapping, call, ends.
    destruct (VersionAndKindForResource r) as [msg|[version kind]]; simpl; [by eexists|].
    destruct (mapper_RESTMapping kind version) as [msg|mapping]; simpl; [by eexists|].
    specialize (IH (acc ++ [mapping])). unfold ends in IH.
    destruct (resourceMappingsLoop rs (acc ++ [mapping])) as [[e|l] calls]; simpl in *;
      [done|]. rewrite IH, length_app. simpl. lia.
Qed.

(** [resourceMappings] applies the policy to the number of resource
    strings, before any of them is resolved. *)
Lemma resourceMappings_single_type b :
  (resourceMappings b).1 = inl errSingleResourceType
  ↔ singleResourceType b = true ∧ 1 < length (resources b).
Proof.
  unfold resourceMappings.
  destruct (1 <? length (resources b)) eqn:Hlen; simpl.
  - apply Nat.ltb_lt in Hlen. destruct (singleResourceType b); simpl.
    + split; [done|]. by intros _.
    + split; [|by intros [? _]].
      intros Hloop. pose proof (resourceMappingsLoop_outcome (resources b) []) as Hends.
      unfold ends in Hends. rewrite Hloop in Hends. by destruct Hends.
  - apply Nat.ltb_ge in Hlen. split; [|lia].
    intros Hloop. pose proof (resourceMappingsLoop_outcome (resources b) []) as Hends.
    unfold ends in Hends. rewrite Hloop in Hends. by destruct Hends.
Qed.

Lemma canonicalOf_insert (mappings : gmap string RESTMapping) (canonical : gset string)
    (raw : string) (mapping : RESTMapping) :
  canonicalOf mappings canonical → mappings !! raw = None →
  canonicalOf (<[raw := mapping]> (<[Resource mapping := mapping]> mappings))
    ({[Resource mapping]} ∪ canonical).
Proof.
  intros [Hkeys Hvals] Hraw.
  assert (Hself : <[raw := mapping]> (<[Resource mapping := mapping]> mappings)
                  !! Resource mapping = Some mapping).
  { destruct (decide (raw = Resource mapping)) as [->|Hne].
    - by rewrite lookup_insert_eq.
    - by rewrite lookup_insert_ne, lookup_insert_eq. }
  split.
  - intros x Hx. apply elem_of_union in Hx as [Hx|Hx].
    + apply elem_of_singleton in Hx as ->. by exists mapping.
    + destruct (decide (Resource mapping = x)) as [<-|Hne]; [by exists mapping|].
      destruct (Hkeys x Hx) as (v & Hv & Hres). exists v. split; [|done].
      rewrite lookup_insert_ne by (intros ->; congruence).
      by rewrite lookup_insert_ne.
  - intros k v Hk. apply elem_of_union.
    destruct (decide (raw = k)) as [->|Hne1].
    { rewrite lookup_insert_eq in Hk. injection Hk as <-.
      left. by apply elem_of_singleton. }
    rewrite lookup_insert_ne in Hk by done.
    destruct (decide (Resource mapping = k)) as [<-|Hne2].
    { rewrite lookup_insert_eq in Hk. injection Hk as <-.
      left. by apply elem_of_singleton. }
    rewrite lookup_insert_ne in Hk by done. right. by eapply Hvals.
Qed.

Lemma resourceTupleMappingsLoop_canonical (ts : list resourceTuple)
    (mappings : gmap string RESTMapping) (canonical : gset string) :
  canonicalOf mappings canonical →
  ends (λ e, ∃ msg, e = Foreign msg) (λ mc, canonicalOf mc.1 mc.2)
    (resourceTupleMappingsLoop ts mappings canonical).
Proof.
  revert mappings canonical.
  induction ts as [|t ts IH]; intros mappings canonical Hinv; simpl; [done|].
  destruct (mappings !! tuple_Resource t) as [v0|] eqn:Hraw; [by apply IH|].
  unfold callVersionAndKindForResource, callRESTMapping, call, ends.
  destruct (VersionAndKindForResource (tuple_Resource t)) as [msg|[version kind]]; simpl;
    [by eexists|].
  destruct (mapper_RESTMapping kind version) as [msg|mapping]; simpl; [by eexists|].
  pose proof (IH _ _ (canonicalOf_insert _ _ (tuple_Resource t) mapping Hinv Hraw)) as Hrest.
  unfold ends in Hrest.
  by destruct (resourceTupleMappingsLoop ts _ _) as [[e|mc] calls].
Qed.

(** [resourceTupleMappings] applies the policy to the canonical resource
    names of the table it resolved: when every tuple resolves, it fails
    with the policy error iff the flag is set and the mappings of the table
    have more than one resource name among them. *)
Lemma resourceTupleMappings_single_type b
    (mappings : gmap string RESTMapping) (canonical : gset string) (calls : list Event) :
  resourceTupleMappingsLoop (resourceTuples b) ∅ ∅ = (inr (mappings, canonical), calls) →
  (∀ x, x ∈ canonical ↔ ∃ k v, mappings !! k = Some v ∧ Resource v = x)
  ∧ ((resourceTupleMappings b).1 = inl errSingleResourceType
     ↔ singleResourceType b = true ∧ 1 < size canonical)
  ∧ ((resourceTupleMappings b).1 = inr mappings
     ↔ ¬ (singleResourceType b = true ∧ 1 < size canonical)).
Proof.
  intros Hloop.
  assert (Hinv : canonicalOf mappings canonical).
  { pose proof (resourceTupleMappingsLoop_canonical (resourceTuples b) ∅ ∅) as H.
    unfold ends in H. rewrite Hloop in H. apply H. split.
    - intros x Hx. by apply not_elem_of_empty in Hx.
    - intros k v Hk. by rewrite lookup_empty in Hk. }
  split.
  { destruct Hinv as [Hkeys Hvals]. intros x. split.
    - intros Hx. destruct (Hkeys x Hx) as (v & Hv & Hres). by exists x, v.
    - intros (k & v & Hk & <-). by eapply Hvals. }
  unfold resourceTupleMappings, singleTypeCheck. rewrite Hloop. simpl.
  destruct (1 <? size canonical) eqn:Hsize; simpl.
  - apply Nat.ltb_lt in Hsize. destruct (singleResourceType b); simpl.
    + split; [by split|]. split; [done|]. intros Hno. destruct Hno. by split.
    + split; [split; [done|by intros [? _]] | ]. split; [|done]. by intros _ [? _].
  - apply Nat.ltb_ge in Hsize. split.
    + split; [done|]. intros [_ ?]. lia.
    + split; [|done]. intros _ [_ ?]. lia.
Qed.

(** *** The singular flag *)

Lemma ends_bind {X A B} (P : X → Prop) (Q' : A → Prop) (Q : B → Prop)
    (m : Run X A) (k : A → Run X B) :
  ends P Q' m → (∀ a, Q' a → ends P Q (k a)) → ends P Q (bind m k).
Proof.
  unfold ends, bind. destruct m as [[x|a] calls]; simpl; [done|].
  intros Ha Hk. specialize (Hk a Ha). by destruct (k a) as [[x|b'] calls'].
Qed.

Lemma ends_orExit {E X A} (P : X → Prop) (Q : A → Prop) (m : Run E A) (h : E → X) :
  ends (λ x, P (h x)) Q m → ends P Q (orExit m h).
Proof. unfold ends, orExit. by destruct m as [[x|a] calls]. Qed.

Lemma ends_returned {A} (P : A → Prop) (m : Run A A) :
  ends P P m → P (returned m).1.
Proof. unfold ends, returned. by destruct m as [[x|a] calls]. Qed.

Lemma ends_weaken {X A} (P P' : X → Prop) (Q Q' : A → Prop) (m : Run X A) :
  (∀ x, P x → P' x) → (∀ a, Q a → Q' a) → ends P Q m → ends P' Q' m.
Proof. unfold ends. destruct m as [[x|a] calls]; simpl; auto. Qed.

Lemma ends_call {A} (P : error → Prop) (Q : A → Prop) (ev : Event) (r : string + A) :
  (∀ msg, r = inl msg → P (Foreign msg)) → (∀ a, r = inr a → Q a) →
  ends P Q (call ev r).
Proof. unfold ends, call. destruct r as [msg|a]; simpl; auto. Qed.

Lemma resourceMappings_outcome b :
  ends (λ _, True) (λ l, length l = length (resources b)) (resourceMappings b).
Proof.
  unfold resourceMappings.
  destruct ((1 <? length (resources b)) && singleResourceType b); [done|].
  eapply ends_weaken; [| |apply resourceMappingsLoop_outcome]; simpl; auto.
Qed.

Lemma selectorVisitors_singular b (sel : labels_Selector)
    (mappings : list RESTMapping) (visitors : list Visitor) :
  ends (λ r, singular r = false) (λ _, True) (selectorVisitors b sel mappings visitors).
Proof.
  revert visitors. induction mappings as [|mapping rest IH]; intros visitors; simpl; [done|].
  eapply ends_bind with (Q' := λ _, True); [|by intros].
  apply ends_orExit. by apply ends_call.
Qed.

Lemma visitSelector_singular b (sel : labels_Selector) :
  ends (λ r, singular r = false) (λ r, singular r = false) (visitSelector b sel).
Proof.
  unfold visitSelector.
  destruct (negb (length (names b) =? 0)); [done|].
  destruct (negb (length (resourceTuples b) =? 0)); [done|].
  destruct (length (resources b) =? 0); [done|].
  destruct (negb (length (paths b) =? 0)); [by destruct (selector_Empty sel)|].
  eapply ends_bind with (Q' := λ _, True).
  { apply ends_orExit. eapply ends_weaken; [| |apply resourceMappings_outcome]; done. }
  intros mappings _.
  eapply ends_bind with (Q' := λ _, True); [apply selectorVisitors_singular|].
  intros visitors _. by destruct (continueOnError b).
Qed.

Lemma tupleClients_never_exits (mappings : list RESTMapping)
    (clients : gmap string RESTClient) :
  (∀ mapping, ∃ client, ClientForMapping mapping = inr client) →
  ends (λ _, False) (λ _, True) (tupleClients mappings clients).
Proof.
  intros Hclient. revert clients.
  induction mappings as [|mapping rest IH]; intros clients; simpl; [done|].
  destruct (clients !! clientKey mapping); [done|].
  eapply ends_bind with (Q' := λ _, True); [|by intros].
  apply ends_orExit. apply ends_call; [|done].
  intros msg Hmsg. destruct (Hclient mapping) as [client Hc]. congruence.
Qed.

Lemma tupleItems_singular b (isSingular : bool) (mappings : gmap string RESTMapping)
    (clients : gmap string RESTClient) (ts : list resourceTuple) (items : list Visitor) :
  ends (λ r, singular r = isSingular) (λ _, True)
    (tupleItems b isSingular mappings clients ts items).
Proof.
  revert items. induction ts as [|tuple rest IH]; intros items; simpl; [done|].
  destruct (mappings !! tuple_Resource tuple) as [mapping|]; [|done].
  destruct (clients !! clientKey mapping) as [client|]; [|done].
  by destruct (namespaced mapping && (String.length (namespace b) =? 0)).
Qed.

Lemma visitTuples_singular b :
  (∀ mapping, ∃ client, ClientForMapping mapping = inr client) →
  ends (λ r, singular r = (length (resourceTuples b) =? 1))
       (λ r, singular r = (length (resourceTuples b) =? 1)) (visitTuples b).
Proof.
  intros Hclient. unfold visitTuples.
  destruct (negb (length (paths b) =? 0)); [done|].
  destruct (negb (length (resources b) =? 0)); [done|].
  eapply ends_bind with (Q' := λ _, True).
  { apply ends_orExit. unfold ends. by destruct (resourceTupleMappings b) as [[e|m] calls]. }
  intros mappings _.
  eapply ends_bind with (Q' := λ _, True).
  { eapply ends_weaken; [| |by apply tupleClients_never_exits]; done. }
  intros clients _.
  eapply ends_bind with (Q' := λ _, True); [apply tupleItems_singular|].
  by intros items _.
Qed.

Lemma nameVisitors_singular (isSingular : bool) client mapping (sns : string)
    (ns : list string) (visitors : list Visitor) :
  ends (λ r, singular r = isSingular) (λ _, True)
    (nameVisitors isSingular client mapping sns ns visitors).
Proof.
  revert visitors. induction ns as [|name rest IH]; intros visitors; simpl; [done|].
  eapply ends_bind with (Q' := λ _, True); [|by intros].
  apply ends_orExit. unfold ends.
  by destruct (Info_Get (NewInfo client mapping sns name)) as [[e|i] calls].
Qed.

Lemma visitNames_singular b :
  (∀ mapping, ∃ client, ClientForMapping mapping = inr client) →
  ends (λ r, singular r = (length (names b) =? 1))
       (λ r, singular r = (length (names b) =? 1)) (visitNames b).
Proof.
  intros Hclient. unfold visitNames.
  destruct (negb (length (paths b) =? 0)); [done|].
  destruct (length (resources b) =? 0) eqn:Hzero; [done|].
  destruct (1 <? length (resources b)) eqn:Hmany; [done|].
  apply Nat.eqb_neq in Hzero. apply Nat.ltb_ge in Hmany.
  eapply ends_bind with (Q' := λ l, length l = length (resources b)).
  { apply ends_orExit. eapply ends_weaken; [| |apply resourceMappings_outcome]; done. }
  intros [|mapping mappings] Hlen; [simpl in Hlen; lia|].
  eapply ends_bind with (Q' := λ _, True).
  { apply ends_orExit. apply ends_call; [|done].
    intros msg Hmsg. destruct (Hclient mapping) as [client Hc]. congruence. }
  intros client _.
  destruct (namespaced mapping && (String.length (namespace b) =? 0)); [done|].
  eapply ends_bind with (Q' := λ _, True); [apply nameVisitors_singular|].
  by intros visitors _.
Qed.

(** What holds of the flag next to C3: when a mode branch runs and the
    client of every mapping can be made, [singular] is as the
    specification has it, on the error results too. *)
Lemma singular_by_mode b :
  errs b = [] →
  (∀ mapping, ∃ client, ClientForMapping mapping = inr client) →
  singular (visitorResult b).1 = expectedSingular b.
Proof.
  intros He Hclient. unfold visitorResult. rewrite He. simpl.
  apply (ends_returned (λ r, singular r = expectedSingular b)).
  unfold expectedSingular, selectorMode, tupleMode, nameMode, pathMode, withSelectAll.
  destruct (selectAll b) eqn:Hall; simpl.
  { apply visitSelector_singular. }
  destruct (selector b) as [sel|] eqn:Hsel; simpl.
  { apply visitSelector_singular. }
  destruct (negb (length (resourceTuples b) =? 0)); [by apply visitTuples_singular|].
  destruct (negb (length (names b) =? 0)); [by apply visitNames_singular|].
  destruct (negb (length (paths b) =? 0)); [|done].
  unfold visitPaths. by destruct (negb (length (resources b) =? 0)).
Qed.

End Properties.

(** ** The properties on concrete configurations *)

Section Concrete.

Import Fake.

(** Two modes at once: a selector and a name. *)
Lemma visitorResult_rejects_mixed_modes_witness :
  let cs := [@CallSelectorParam std "app=web";
             @CallResourceTypeOrNameArgs std false ["pods"; "web"]] in
  2 ≤ @populatedModes std (@configure std cs)
  ∧ ∃ r e, @visitorResult std (@configure std cs) = (r, [])
           ∧ err r = Some e ∧ ConfigurationError e
           ∧ visitor r = NilVisitor ∧ sources r = [].
Proof.
  intros cs. split.
  - vm_compute. lia.
  - apply (@visitorResult_rejects_mixed_modes std cs). vm_compute. lia.
Defined.

(** A path that does not exist leaves one recorded error. *)
Lemma visitorResult_accumulated_errors_witness :
  let b := @Path std ["nowhere.json"] (@NewBuilder std) in
  errs b ≠ []
  ∧ @visitorResult std b
    = ({| singular := false;
          err := Some (Aggregate [Errorf "the path %q does not exist" [ArgString "nowhere.json"]]);
          visitor := NilVisitor; sources := [] |}, []).
Proof.
  intros b. split.
  - vm_compute. discriminate.
  - apply (@visitorResult_accumulated_errors std b). vm_compute. discriminate.
Defined.

(** Three names of which the second cannot be fetched: the third is never
    asked for, also under continue-on-error. *)
Lemma visitorResult_name_mode_fetches_inline_witness :
  let b := @ContinueOnError std
             (@ResourceTypeOrNameArgs std false ["pods"; "web"; "missing"; "db"]
                (@NamespaceParam std "default" (@NewBuilder std))) in
  @visitorResult std b
  = ({| singular := false; err := Some (Foreign "not found");
        visitor := NilVisitor; sources := [] |},
     [CallVersionAndKindForResource "pods"; CallRESTMapping "Pod" "v1";
      CallClientForMapping pods;
      CallGet (@NewInfo std "client v1" pods "default" "web");
      CallGet (@NewInfo std "client v1" pods "default" "missing")]).
Proof.
  intros b.
  pose proof (@visitorResult_name_mode_fetches_inline std b "pods" "v1" "Pod" pods
                "client v1" eq_refl eq_refl eq_refl eq_refl eq_refl
                ltac:(vm_compute; discriminate) eq_refl eq_refl eq_refl eq_refl
                ltac:(vm_compute; discriminate))
    as (_ & Hfails & _).
  apply (Hfails ["web"] "missing" ["db"] "not found"
           [@InfoVisitor std
              (@Build_Info std "client v1" pods "default" "web" (Some "pods/web"))]);
    try reflexivity.
  constructor; [|constructor].
  exists "pods/web". split; reflexivity.
Defined.

(** C6, counterexample: a file source with latest and flatten. [Do] wraps
    the visitor of the path branch, which is already flattened and eagerly
    refreshed, in flatten a second time and adds the lazy refresh; the
    result is not the once-flattened, once-refreshed visitor. *)
Lemma Do_flattens_twice :
  let b := @Flatten std (@Latest std (@Path std ["pod.json"] (@NewBuilder std))) in
  let base := @NewDecoratedVisitor std
                (NewFlattenListVisitor (VisitorList [PathVisitor "pod.json" false]))
                [VisitorFuncs.RetrieveLatest] in
  @pathConfiguration std b ∧ latest b = true ∧ flatten b = true
  ∧ (@visitorResult std b).1
    = {| singular := true; err := None; visitor := base;
         sources := [PathVisitor "pod.json" false] |}
  ∧ visitor (@Do std b).1
    = NewDecoratedVisitor (NewFlattenListVisitor base)
        [VisitorFuncs.FilterNamespace; VisitorFuncs.RetrieveLazy]
  ∧ visitor (@Do std b).1 ≠ NewDecoratedVisitor base [VisitorFuncs.FilterNamespace].
Proof.
  intros b base. split_and!; try reflexivity.
  - unfold pathConfiguration. split_and!; try reflexivity. vm_compute. discriminate.
  - vm_compute. discriminate.
Qed.

Lemma Do_overlay_order_witness :
  let b := @Flatten std (@Latest std (@Path std ["pod.json"] (@NewBuilder std))) in
  visitor (@Do std b).1
  = NewDecoratedVisitor
      (NewFlattenListVisitor
         (NewDecoratedVisitor
            (NewFlattenListVisitor (VisitorList [PathVisitor "pod.json" false]))
            [VisitorFuncs.RetrieveLatest]))
      [VisitorFuncs.FilterNamespace; VisitorFuncs.RetrieveLazy].
Proof.
  intros b.
  destruct (@Do_overlay_order std b) as [_ Hpath].
  apply Hpath; try reflexivity.
  unfold pathConfiguration. split_and!; try reflexivity. vm_compute. discriminate.
Defined.

(** "app=web" after and before "select all", and the empty selector. *)
Lemma selectAll_selector_conflict_witness :
  @SelectorParam std "app=web" (@SelectAllParam std true (@NewBuilder std))
  = @set_errs std [errSelectorAfterAll "app=web"] (@set_selectAll std true (@NewBuilder std))
  ∧ @SelectAllParam std true (@SelectorParam std "app=web" (@NewBuilder std))
    = @set_errs std [errAllAfterSelector]
        (@set_selector std (Some ["app=web"]) (@NewBuilder std))
  ∧ @SelectorParam std "" (@SelectAllParam std true (@NewBuilder std))
    = @SelectAllParam std true (@NewBuilder std).
Proof.
  pose proof (@selectAll_selector_conflict std (@NewBuilder std) "app=web" ["app=web"] eq_refl)
    as (Hafter & Hbefore & _).
  pose proof (@selectAll_selector_conflict std
                (@SelectAllParam std true (@NewBuilder std)) "" [] eq_refl) as Hempty.
  split_and!.
  - apply Hafter. reflexivity.
  - apply Hbefore. reflexivity.
  - exact Hempty.
Defined.

(** C9, counterexample: with a registry in which "core/pods" is an alias
    of "pods", the arguments "core/pods" and "web" are a slash argument and
    a plain one, yet no error is recorded, and the name and the resource
    type are taken. *)
Lemma ResourceTypeOrNameArgs_alias_hides_slash :
  let args := ["core/pods"; "web"] in
  let b := @ResourceTypeOrNameArgs aliased false args (@NewBuilder aliased) in
  someButNotAllHaveSlash args
  ∧ errs b = [] ∧ names b = ["web"] ∧ resources b = ["pods"]
  ∧ names b ≠ names (@NewBuilder aliased)
  ∧ resources b ≠ resources (@NewBuilder aliased).
Proof.
  intros args b. split_and!; try reflexivity; try (vm_compute; discriminate).
  split.
  - exists "core/pods". split; [apply elem_of_cons; by left | reflexivity].
  - exists "web". split; [apply elem_of_cons; right; apply elem_of_cons; by left | reflexivity].
Qed.

Lemma ResourceTypeOrNameArgs_mixed_witness :
  let args := ["pods/web"; "services"] in
  @ResourceTypeOrNameArgs std false args (@NewBuilder std)
  = @set_errs std [errMixedArgs] (@NewBuilder std).
Proof.
  intros args.
  apply (@ResourceTypeOrNameArgs_mixed std (@NewBuilder std) false args).
  left. split.
  - exists "pods/web". split; [apply elem_of_cons; by left | reflexivity].
  - exists "services". split; [apply elem_of_cons; right; apply elem_of_cons; by left | reflexivity].
Defined.

(** Nothing configured: evaluation fails, and [Do] hands the failure on. *)
Lemma Do_returns_failed_result_witness :
  err (@visitorResult std (@NewBuilder std)).1 ≠ None
  ∧ @Do std (@NewBuilder std) = @visitorResult std (@NewBuilder std).
Proof.
  split.
  - vm_compute. discriminate.
  - apply (@Do_returns_failed_result std (@NewBuilder std)). vm_compute. discriminate.
Defined.

(** C3, at a failing input: one resource/name tuple (and, likewise, one
    name) while no client can be made. The result has [singular] false,
    although exactly one tuple (one name) was given; the errors returned
    before and after the client is made do carry the flag. *)
Lemma singular_dropped_when_client_fails :
  let tuple := @ResourceTypeOrNameArgs offline false ["pods/web"]
                 (@NamespaceParam offline "default" (@NewBuilder offline)) in
  let name := @ResourceTypeOrNameArgs offline false ["pods"; "web"]
                (@NamespaceParam offline "default" (@NewBuilder offline)) in
  (errs tuple = [] ∧ selector tuple = None ∧ selectAll tuple = false
   ∧ resourceTuples tuple = [{| tuple_Resource := "pods"; tuple_Name := "web" |}]
   ∧ (@visitorResult offline tuple).1
     = {| singular := false; err := Some (Foreign "connection refused");
          visitor := NilVisitor; sources := [] |})
  ∧ (errs name = [] ∧ selector name = None ∧ selectAll name = false
     ∧ resourceTuples name = [] ∧ names name = ["web"]
     ∧ (@visitorResult offline name).1
       = {| singular := false; err := Some (Foreign "connection refused");
            visitor := NilVisitor; sources := [] |})
  ∧ (@visitorResult offline (@Path offline ["pod.json"] tuple)).1
    = {| singular := true;
         err := Some (Errorf "when paths, URLs, or stdin is provided as input, you may not specify a resource by arguments as well" []);
         visitor := NilVisitor; sources := [] |}
  ∧ (@visitorResult std (@ResourceTypeOrNameArgs std false ["pods/web"] (@NewBuilder std))).1
    = {| singular := true;
         err := Some (Errorf "namespace may not be empty when retrieving a resource by name" []);
         visitor := NilVisitor; sources := [] |}.
Proof.
  intros tuple name. split_and!; reflexivity.
Qed.

(** C5, at a failing input: with the single-resource-type flag, the two
    resource types "pod" and "pods" resolve to the one canonical resource
    "pods", yet [resourceMappings] fails, on the count of the strings and
    before it resolves any; [resourceTupleMappings] accepts the same two
    types given as tuples. *)
Lemma resourceMappings_counts_strings :
  let b := @SingleResourceType std
             (@ResourceTypeOrNameArgs std true ["pod,pods"] (@NewBuilder std)) in
  let tuples := @SingleResourceType std
                  (@ResourceTypeOrNameArgs std false ["pod/web"; "pods/db"] (@NewBuilder std)) in
  resources b = ["pod"; "pods"] ∧ singleResourceType b = true
  ∧ @resourceMappingsLoop std (resources b) []
    = (inr [pods; pods],
       [CallVersionAndKindForResource "pod"; CallRESTMapping "Pod" "v1";
        CallVersionAndKindForResource "pods"; CallRESTMapping "Pod" "v1"])
  ∧ @resourceMappings std b
    = (inl (Errorf "you may only specify a single resource type" []), [])
  ∧ (@resourceTupleMappings std tuples).1
    = inr (<["pod" := pods]> (<["pods" := pods]> ∅)).
Proof.
  intros b tuples. split_and!; reflexivity.
Qed.

End Concrete.

(** * Further properties of the builder *)

(** ** Splitting and joining *)

Lemma strings_Contains_app (a b : string) (sep : ascii) :
  strings_Contains (a +:+ b) sep = strings_Contains a sep || strings_Contains b sep.
Proof.
  induction a as [|c a IH]; simpl; [done|].
  rewrite IH. by destruct (Ascii.eqb c sep).
Qed.

Lemma strings_Split_plain (s : string) (sep : ascii) :
  strings_Contains s sep = false → strings_Split s sep = [s].
Proof.
  induction s as [|c s IH]; simpl; [done|].
  destruct (Ascii.eqb c sep); simpl; [done|].
  intros Hs. by rewrite (IH Hs).
Qed.

Lemma strings_Split_app (r rest : string) (sep : ascii) :
  strings_Contains r sep = false →
  strings_Split (r +:+ String sep rest) sep = r :: strings_Split rest sep.
Proof.
  induction r as [|c r IH]; simpl.
  - intros _. by rewrite Ascii.eqb_refl.
  - destruct (Ascii.eqb c sep); simpl; [done|].
    intros Hr. by rewrite (IH Hr).
Qed.

Lemma strings_Split_length (s : string) (sep : ascii) :
  length (strings_Split s sep) = S (strings_Count s sep).
Proof.
  induction s as [|c s IH]; simpl; [done|].
  destruct (Ascii.eqb c sep); simpl; [by rewrite IH|].
  destruct (strings_Split s sep); simpl in *; done.
Qed.

Lemma strings_Split_segments (s : string) (sep : ascii) :
  Forall (λ seg, strings_Contains seg sep = false) (strings_Split s sep).
Proof.
  induction s as [|c s IH]; simpl; [by repeat constructor|].
  destruct (Ascii.eqb c sep) eqn:Hc; [by constructor|].
  destruct (strings_Split s sep) as [|seg segs].
  { constructor; [|constructor]. simpl. by rewrite Hc. }
  apply Forall_cons in IH as [Hseg Hsegs]. constructor; [|done].
  simpl. by rewrite Hc.
Qed.

Lemma strings_Split_Join (l : list string) (sep : ascii) :
  l ≠ [] → Forall (λ seg, strings_Contains seg sep = false) l →
  strings_Split (strings_Join l (String sep "")) sep = l.
Proof.
  unfold strings_Join. induction l as [|x l IH]; [done|]. intros _ Hl.
  apply Forall_cons in Hl as [Hx Hl]. destruct l as [|y l].
  - simpl. by apply strings_Split_plain.
  - change (String.concat (String sep "") (x :: y :: l))
      with (x +:+ String sep (String.concat (String sep "") (y :: l))).
    rewrite strings_Split_app by done. f_equal. by apply IH.
Qed.

Lemma strings_Join_Split (s : string) (sep : ascii) :
  strings_Join (strings_Split s sep) (String sep "") = s.
Proof.
  unfold strings_Join. induction s as [|c s IH]; simpl; [done|].
  destruct (Ascii.eqb c sep) eqn:Hc.
  - apply Ascii.eqb_eq in Hc as ->.
    pose proof (strings_Split_nonempty s sep) as Hne.
    destruct (strings_Split s sep) as [|seg segs]; [done|].
    simpl in *. by rewrite IH.
  - pose proof (strings_Split_nonempty s sep) as Hne.
    destruct (strings_Split s sep) as [|seg segs]; [done|].
    destruct segs as [|seg' segs]; simpl in *; by rewrite <- IH.
Qed.

Lemma first_occurrences_NoDup_id (l : list string) :
  NoDup l → first_occurrences l = l.
Proof.
  induction 1 as [|x l Hx Hl IH]; simpl; [done|].
  rewrite IH. f_equal. clear IH Hl.
  induction l as [|y l IH]; [done|].
  apply not_elem_of_cons in Hx as [Hne Hx].
  rewrite filter_cons_True by done. f_equal. by apply IH.
Qed.

(** X1: joining distinct comma-free resource types with commas and splitting
    the result gives the types back, and splitting is idempotent through a
    join: [SplitResourceArgument] applied to its own joined output returns
    that output. *)
Theorem SplitResourceArgument_Join :
  (∀ l : list string,
      l ≠ [] → NoDup l → Forall (λ s, strings_Contains s ","%char = false) l →
      SplitResourceArgument (strings_Join l ",") = l)
  ∧ (∀ arg : string,
        SplitResourceArgument (strings_Join (SplitResourceArgument arg) ",")
        = SplitResourceArgument arg).
Proof.
  assert (Hjoin : ∀ l : list string,
             l ≠ [] → NoDup l → Forall (λ s, strings_Contains s ","%char = false) l →
             SplitResourceArgument (strings_Join l ",") = l).
  { intros l Hne Hnd Hplain.
    rewrite SplitResourceArgument_first_occurrences.
    rewrite (strings_Split_Join l ","%char Hne Hplain).
    by apply first_occurrences_NoDup_id. }
  split; [exact Hjoin|].
  intros arg. apply Hjoin.
  - apply SplitResourceArgument_nonempty.
  - rewrite SplitResourceArgument_first_occurrences. apply first_occurrences_NoDup.
  - rewrite SplitResourceArgument_first_occurrences.
    apply Forall_forall. intros s Hs.
    apply (proj1 (first_occurrences_elem_of _ _)) in Hs.
    pose proof (strings_Split_segments arg ","%char) as Hsegs.
    rewrite Forall_forall in Hsegs. by apply Hsegs.
Qed.

Lemma SplitResourceArgument_Join_witness :
  SplitResourceArgument (strings_Join ["rc"; "svc"; "pods"] ",") = ["rc"; "svc"; "pods"].
Proof.
  apply (proj1 SplitResourceArgument_Join).
  - discriminate.
  - apply (bool_decide_unpack (NoDup ["rc"; "svc"; "pods"])). vm_compute. exact I.
  - repeat (constructor; [reflexivity|]). constructor.
Defined.

Section Arguments.
Context `{C : Collaborators}.

Implicit Types (b : Builder).

(** *** The form of the arguments *)

Lemma hasSlash_all (args : list string) :
  length (filter (λ s, strings_Contains s "/"%char = true) args) = length args
  ↔ forallb (λ s, strings_Contains s "/"%char) args = true.
Proof.
  induction args as [|a args IH]; simpl; [done|].
  destruct (strings_Contains a "/"%char) eqn:Ha; simpl.
  - rewrite filter_cons_True by done. simpl. rewrite <- IH. lia.
  - rewrite filter_cons_False by (by rewrite Ha).
    pose proof (length_filter (λ s, strings_Contains s "/"%char = true) args).
    split; [lia | done].
Qed.

Lemma hasSlash_none (args : list string) :
  length (filter (λ s, strings_Contains s "/"%char = true) args) = 0
  ↔ forallb (λ s, negb (strings_Contains s "/"%char)) args = true.
Proof.
  induction args as [|a args IH]; simpl; [done|].
  destruct (strings_Contains a "/"%char) eqn:Ha; simpl.
  - rewrite filter_cons_True by done. simpl. split; [lia | done].
  - by rewrite filter_cons_False by (by rewrite Ha).
Qed.

Lemma hasCombinedTypeArgs_classify (args : list string) :
  hasCombinedTypeArgs args
  = if forallb (λ s, negb (strings_Contains s "/"%char)) args then (false, None)
    else if forallb (λ s, strings_Contains s "/"%char) args then (true, None)
    else (true, Some errMixedArgs).
Proof.
  unfold hasCombinedTypeArgs. rewrite hasSlash_count. simpl.
  pose proof (hasSlash_none args) as Hnone. pose proof (hasSlash_all args) as Hall.
  set (n := length (filter (λ s, strings_Contains s "/"%char = true) args)) in *.
  destruct (forallb (λ s, negb (strings_Contains s "/"%char)) args).
  - assert (n = 0) as -> by by apply Hnone. reflexivity.
  - assert (n ≠ 0) as Hn by (intros H0; apply Hnone in H0; done).
    destruct n as [|n]; [done|].
    change (0 <? S n) with true. cbn [andb].
    destruct (S n =? length args) eqn:Heq.
    + apply Nat.eqb_eq, Hall in Heq. by rewrite Heq.
    + destruct (forallb (λ s, strings_Contains s "/"%char) args); [|done].
      apply Nat.eqb_neq in Heq. destruct Heq. by apply Hall.
Qed.

(** X2: [hasCombinedTypeArgs] sorts an argument list into three kinds: no
    argument has a slash (not combined, which includes the empty list);
    every argument has one (combined); some but not all have one (combined,
    with the error). *)
Theorem hasCombinedTypeArgs_kinds (args : list string) :
  hasCombinedTypeArgs args
  = if forallb (λ s, negb (strings_Contains s "/"%char)) args then (false, None)
    else if forallb (λ s, strings_Contains s "/"%char) args then (true, None)
    else (true, Some errMixedArgs).
Proof. apply hasCombinedTypeArgs_classify. Qed.

Lemma strings_Contains_Count (s : string) (sep : ascii) :
  strings_Contains s sep = true ↔ 0 < strings_Count s sep.
Proof.
  induction s as [|c s IH]; simpl; [split; [done|lia]|].
  destruct (Ascii.eqb c sep); simpl; [split; [lia|done]|done].
Qed.

Lemma formatTuple_has_slash (t : resourceTuple) :
  strings_Contains (formatTuple t) "/"%char = true.
Proof.
  unfold formatTuple. rewrite !strings_Contains_app. simpl.
  by rewrite orb_true_r.
Qed.

Lemma formatTuple_Split (t : resourceTuple) :
  strings_Contains (tuple_Resource t) "/"%char = false →
  strings_Contains (tuple_Name t) "/"%char = false →
  strings_Split (formatTuple t) "/"%char = [tuple_Resource t; tuple_Name t].
Proof.
  intros Hr Hn. unfold formatTuple.
  change ("/" +:+ tuple_Name t) with (String "/"%char (tuple_Name t)).
  rewrite strings_Split_app by done. by rewrite strings_Split_plain.
Qed.

Lemma set_resourceTuples_twice b (ts ts' : list resourceTuple) :
  set_resourceTuples ts' (set_resourceTuples ts b) = set_resourceTuples ts' b.
Proof. done. Qed.

Lemma combinedTuples_plain (ts : list resourceTuple) b :
  Forall plainTuple ts →
  combinedTuples (map formatTuple ts) b = set_resourceTuples (resourceTuples b ++ ts) b.
Proof.
  intros Hts. revert b. induction Hts as [|t ts (Hr & Hn & Hrs & Hns & Hrc) _ IH]; intros b.
  - simpl. rewrite app_nil_r. by destruct b.
  - cbn [map combinedTuples]. rewrite (formatTuple_Split t Hrs Hns).
    cbn [length Nat.eqb negb nth].
    assert ((String.length (tuple_Resource t) =? 0) = false) as ->
        by (by destruct (tuple_Resource t)).
    assert ((String.length (tuple_Name t) =? 0) = false) as ->
        by (by destruct (tuple_Name t)).
    rewrite SplitResourceArgument_first_occurrences, (strings_Split_plain _ _ Hrc).
    cbn [first_occurrences filter list_filter length Nat.eqb negb orb].
    rewrite IH. simpl. rewrite <- app_assoc. by destruct t.
Qed.

Lemma combinedTuples_app_plain (good : list resourceTuple) (rest : list string) b :
  Forall plainTuple good →
  combinedTuples (map formatTuple good ++ rest) b
  = combinedTuples rest (set_resourceTuples (resourceTuples b ++ good) b).
Proof.
  intros Hgood. revert b. induction Hgood as [|t ts (Hr & Hn & Hrs & Hns & Hrc) _ IH]; intros b.
  - simpl. rewrite app_nil_r. by destruct b.
  - cbn [map app combinedTuples]. rewrite (formatTuple_Split t Hrs Hns).
    cbn [length Nat.eqb negb nth].
    assert ((String.length (tuple_Resource t) =? 0) = false) as ->
        by (by destruct (tuple_Resource t)).
    assert ((String.length (tuple_Name t) =? 0) = false) as ->
        by (by destruct (tuple_Name t)).
    rewrite SplitResourceArgument_first_occurrences, (strings_Split_plain _ _ Hrc).
    cbn [first_occurrences filter list_filter length Nat.eqb negb orb].
    rewrite IH. simpl. rewrite <- app_assoc. by destruct t.
Qed.

Lemma hasCombinedTypeArgs_all (args : list string) :
  args ≠ [] → Forall (λ s, strings_Contains s "/"%char = true) args →
  hasCombinedTypeArgs args = (true, None).
Proof.
  intros Hne Hall. rewrite hasCombinedTypeArgs_classify.
  destruct args as [|a args]; [done|].
  apply Forall_cons in Hall as [Ha Hall]. simpl. rewrite Ha. simpl.
  assert (forallb (λ s, strings_Contains s "/"%char) args = true) as ->; [|done].
  apply forallb_forall. intros x Hx. rewrite Forall_forall in Hall.
  apply Hall. by apply list_elem_of_In.
Qed.

Lemma hasCombinedTypeArgs_none (args : list string) :
  Forall (λ s, strings_Contains s "/"%char = false) args →
  hasCombinedTypeArgs args = (false, None).
Proof.
  intros Hnone. rewrite hasCombinedTypeArgs_classify.
  assert (forallb (λ s, negb (strings_Contains s "/"%char)) args = true) as ->; [|done].
  apply forallb_forall. intros x Hx. rewrite Forall_forall in Hnone.
  rewrite Hnone; [done|]. by apply list_elem_of_In.
Qed.

(** X3: arguments that are plain tuples written as "resource/name" (no
    alias among them) are recorded as exactly those tuples, in order, and
    nothing else of the builder changes: no error, no name, no resource
    type, no selector, whatever [allowEmptySelector] is. *)
Theorem ResourceTypeOrNameArgs_tuples b (allowEmptySelector : bool)
    (ts : list resourceTuple) :
  ts ≠ [] → Forall plainTuple ts →
  (∀ t, t ∈ ts → AliasesForResource (formatTuple t) = None) →
  ResourceTypeOrNameArgs allowEmptySelector (map formatTuple ts) b
  = set_resourceTuples (resourceTuples b ++ ts) b.
Proof.
  intros Hne Hplain Hno. unfold ResourceTypeOrNameArgs.
  rewrite replaceAliases_no_alias.
  2:{ intros a Ha. apply list_elem_of_fmap in Ha as (t & -> & Ht). by apply Hno. }
  rewrite hasCombinedTypeArgs_all.
  - by apply combinedTuples_plain.
  - by destruct ts.
  - apply Forall_fmap, Forall_forall. intros t _. apply formatTuple_has_slash.
Qed.

(** X4: the loop over resource/name arguments stops at the first argument
    it cannot take and keeps the tuples recorded before it: an argument
    with more than one slash records "may not have more than one slash",
    an argument with an empty resource or an empty name records "must have
    a single resource and name"; the arguments after it are not looked
    at. *)
Theorem ResourceTypeOrNameArgs_stops_at_bad_tuple b (allowEmptySelector : bool)
    (good : list resourceTuple) (bad : string) (rest : list string) :
  Forall plainTuple good →
  Forall (λ s, strings_Contains s "/"%char = true) rest →
  (∀ a, a ∈ map formatTuple good ++ bad :: rest → AliasesForResource a = None) →
  (1 < strings_Count bad "/"%char →
   ResourceTypeOrNameArgs allowEmptySelector (map formatTuple good ++ bad :: rest) b
   = set_errs (errs b ++ [errManySlashes])
       (set_resourceTuples (resourceTuples b ++ good) b))
  ∧ (∀ t, bad = formatTuple t →
          strings_Contains (tuple_Resource t) "/"%char = false →
          strings_Contains (tuple_Name t) "/"%char = false →
          tuple_Resource t = "" ∨ tuple_Name t = "" →
          ResourceTypeOrNameArgs allowEmptySelector (map formatTuple good ++ bad :: rest) b
          = set_errs (errs b ++ [errNotSingle])
              (set_resourceTuples (resourceTuples b ++ good) b)).
Proof.
  intros Hgood Hrest Hno.
  assert (Hstart : strings_Contains bad "/"%char = true →
            ResourceTypeOrNameArgs allowEmptySelector (map formatTuple good ++ bad :: rest) b
            = combinedTuples (bad :: rest)
                (set_resourceTuples (resourceTuples b ++ good) b)).
  { intros Hbad. unfold ResourceTypeOrNameArgs.
    rewrite replaceAliases_no_alias by done.
    rewrite hasCombinedTypeArgs_all.
    - by apply combinedTuples_app_plain.
    - by destruct good.
    - apply Forall_app. split.
      + apply Forall_fmap, Forall_forall. intros t _. apply formatTuple_has_slash.
      + by constructor. }
  split.
  - intros Hmany. rewrite Hstart by (apply strings_Contains_Count; lia).
    cbn [combinedTuples]. rewrite strings_Split_length.
    destruct (strings_Count bad "/"%char) as [|[|n]]; [lia..|]. reflexivity.
  - intros t -> Hrs Hns Hempty. rewrite Hstart by apply formatTuple_has_slash.
    cbn [combinedTuples]. rewrite (formatTuple_Split t Hrs Hns).
    cbn [length Nat.eqb negb nth].
    destruct Hempty as [-> | ->]; [reflexivity|].
    simpl. by rewrite orb_true_r.
Qed.

(** X5: an argument that is an alias stands for its expansion: when the
    only argument is an alias of one or more comma-free, slash-free
    resource types, the resource types recorded are the distinct types of
    the expansion, in order; names, tuples and errors are as before. *)
Theorem ResourceTypeOrNameArgs_alias b (allowEmptySelector : bool)
    (arg : string) (aliases : list string) :
  AliasesForResource arg = Some aliases →
  aliases ≠ [] →
  Forall (λ s, strings_Contains s ","%char = false) aliases →
  Forall (λ s, strings_Contains s "/"%char = false) aliases →
  let b' := ResourceTypeOrNameArgs allowEmptySelector [arg] b in
  resources b' = resources b ++ first_occurrences aliases
  ∧ names b' = names b ∧ resourceTuples b' = resourceTuples b ∧ errs b' = errs b.
Proof.
  intros Halias Hne Hcomma Hslash b'. unfold b', ResourceTypeOrNameArgs.
  rewrite replaceAliases_map. cbn [map]. rewrite Halias.
  rewrite hasCombinedTypeArgs_none.
  2:{ constructor; [|constructor]. unfold strings_Join.
      clear Hne Hcomma Halias. induction Hslash as [|x l Hx Hl IH]; [done|].
      destruct l as [|y l]; [done|].
      change (String.concat "," (x :: y :: l))
        with (x +:+ String ","%char (String.concat "," (y :: l))).
      rewrite strings_Contains_app, Hx. simpl. exact IH. }
  cbn [length Nat.ltb Nat.leb Nat.eqb nth].
  rewrite SplitResourceArgument_first_occurrences.
  rewrite (strings_Split_Join aliases ","%char Hne Hcomma).
  by destruct (negb (notNil (selector (ResourceTypes (first_occurrences aliases) b)))
               && allowEmptySelector).
Qed.

(** X6: for a resource argument and a name argument without slashes, of
    which neither is an alias, [ResourceTypeOrNameArgs] and
    [ResourceTypeAndNameArgs] record the same: the name, and the distinct
    resource types of the first argument. *)
Theorem ResourceTypeAndNameArgs_agrees b (allowEmptySelector : bool)
    (resource name : string) :
  strings_Contains resource "/"%char = false →
  strings_Contains name "/"%char = false →
  AliasesForResource resource = None → AliasesForResource name = None →
  ResourceTypeOrNameArgs allowEmptySelector [resource; name] b
  = ResourceTypeAndNameArgs [resource; name] b
  ∧ names (ResourceTypeAndNameArgs [resource; name] b) = names b ++ [name]
  ∧ resources (ResourceTypeAndNameArgs [resource; name] b)
    = resources b ++ SplitResourceArgument resource.
Proof.
  intros Hr Hn Har Han. split; [|done].
  unfold ResourceTypeOrNameArgs, ResourceTypeAndNameArgs.
  rewrite replaceAliases_map. cbn [map]. rewrite Har, Han.
  rewrite hasCombinedTypeArgs_none by (by repeat constructor).
  reflexivity.
Qed.

End Arguments.

Section Sources.
Context `{C : Collaborators}.

Implicit Types (b : Builder).

(** *** Paths, URLs and streams *)

Lemma sameSelection_trans b1 b2 b3 :
  sameSelection b1 b2 → sameSelection b2 b3 → sameSelection b1 b3.
Proof.
  unfold sameSelection.
  intros (?&?&?&?&?&?&?&?&?&?&?&?) (?&?&?&?&?&?&?&?&?&?&?&?).
  split_and!; congruence.
Qed.

Lemma accountsFor_refl b : accountsFor 0 b b.
Proof. unfold accountsFor, sameSelection. split_and!; try done; lia. Qed.

Lemma accountsFor_trans (n m : nat) b1 b2 b3 :
  accountsFor n b1 b2 → accountsFor m b2 b3 → accountsFor (n + m) b1 b3.
Proof.
  intros (Hn & Hp & He & Hs) (Hm & Hp' & He' & Hs'). unfold accountsFor.
  split_and!; [lia | by etrans | by etrans |].
  by apply sameSelection_trans with b2.
Qed.

Lemma accountsFor_fold {A} (f : Builder → A → Builder) (l : list A) b :
  (∀ b a, accountsFor 1 b (f b a)) → accountsFor (length l) b (fold_left f l b).
Proof.
  intros Hf. revert b. induction l as [|a l IH]; intros b; simpl.
  - apply accountsFor_refl.
  - change (S (length l)) with (1 + length l).
    eapply accountsFor_trans; [apply Hf | apply IH].
Qed.

Lemma accountsFor_source b (v : Visitor) b' :
  paths b' = paths b ++ [v] → errs b' = errs b → sameSelection b b' →
  accountsFor 1 b b'.
Proof.
  intros Hp He Hs. unfold accountsFor. rewrite Hp, He, length_app. simpl.
  split_and!; [lia | by apply prefix_app_r | done | done].
Qed.

Lemma accountsFor_error b (e : error) b' :
  paths b' = paths b → errs b' = errs b ++ [e] → sameSelection b b' →
  accountsFor 1 b b'.
Proof.
  intros Hp He Hs. unfold accountsFor. rewrite Hp, He, length_app. simpl.
  split_and!; [lia | done | by apply prefix_app_r | done].
Qed.

Lemma accountsFor_Path1 b (p : string) : accountsFor 1 b (Path1 b p).
Proof.
  unfold Path1. destruct (os_Stat p) as [|e|[|]].
  - eapply accountsFor_error; [done..|]. by unfold sameSelection.
  - eapply accountsFor_error; [done..|]. by unfold sameSelection.
  - eapply accountsFor_source; [done..|]. by unfold sameSelection.
  - eapply accountsFor_source; [done..|]. by unfold sameSelection.
Qed.

Lemma accountsFor_Stream b (r : io_Reader) (name : string) :
  accountsFor 1 b (Stream r name b).
Proof. eapply accountsFor_source; [done..|]. by unfold sameSelection. Qed.

Lemma accountsFor_URL b (urls : list url_URL) :
  accountsFor (length urls) b (URL urls b).
Proof.
  apply accountsFor_fold. intros b0 u.
  eapply accountsFor_source; [done..|]. by unfold sameSelection.
Qed.

Lemma accountsFor_FilenameParam1 b (s : string) : accountsFor 1 b (FilenameParam1 b s).
Proof.
  unfold FilenameParam1.
  destruct (String.eqb s "-"); [apply accountsFor_Stream|].
  destruct (strings_IndexIsZero s "http://" || strings_IndexIsZero s "https://").
  - destruct (url_Parse s) as [e|u].
    + eapply accountsFor_error; [done..|]. by unfold sameSelection.
    + apply (accountsFor_URL b [u]).
  - apply (accountsFor_fold Path1 [s]), accountsFor_Path1.
Qed.

Lemma stream_FilenameParam (ps : list string) b :
  stream (FilenameParam ps b) = stream b || existsb (λ s, String.eqb s "-") ps.
Proof.
  unfold FilenameParam. revert b. induction ps as [|s ps IH]; intros b; simpl.
  - by rewrite orb_false_r.
  - rewrite IH. unfold FilenameParam1.
    destruct (String.eqb s "-"); simpl; [by rewrite orb_true_r|].
    destruct (strings_IndexIsZero s "http://" || strings_IndexIsZero s "https://").
    + by destruct (url_Parse s).
    + unfold Path1. by destruct (os_Stat s) as [|e|[|]].
Qed.

Lemma FilenameParam_steps (ps : list string) b :
  accountsFor (length ps) b (FilenameParam ps b).
Proof. apply accountsFor_fold, accountsFor_FilenameParam1. Qed.

(** X7: [FilenameParam] accounts for every argument: each one adds exactly
    one source or exactly one error, behind the sources and errors recorded
    before, so none is dropped silently; selector, resource types,
    namespace, names, tuples and policy flags are not touched; and the
    stream flag is raised exactly when "-" is among the arguments (or was
    raised before). *)
Theorem FilenameParam_accounts (ps : list string) b :
  accountsFor (length ps) b (FilenameParam ps b)
  ∧ stream (FilenameParam ps b) = stream b || existsb (λ s, String.eqb s "-") ps.
Proof.
  split.
  - apply FilenameParam_steps.
  - apply stream_FilenameParam.
Qed.

(** X8: [Path] adds, in the order of its arguments, a directory visitor for
    each directory and a path visitor for each other existing file, both
    with the continue-on-error setting of the moment of the call, and an
    error for each path that does not exist or cannot be accessed; the
    directory flag is raised exactly when one of the paths is a
    directory. *)
Theorem Path_sources_and_errors (ps : list string) b :
  paths (Path ps b)
  = paths b
    ++ omap (λ p, match os_Stat p with
                  | StatInfo true =>
                      Some (DirectoryVisitor p [".json"; ".yaml"] false (continueOnError b))
                  | StatInfo false => Some (PathVisitor p (continueOnError b))
                  | _ => None
                  end) ps
  ∧ errs (Path ps b)
    = errs b
      ++ omap (λ p, match os_Stat p with
                    | StatNotExist =>
                        Some (Errorf "the path %q does not exist" [ArgString p])
                    | StatFailed e =>
                        Some (Errorf "the path %q cannot be accessed: %v"
                                [ArgString p; ArgError e])
                    | StatInfo _ => None
                    end) ps
  ∧ dir (Path ps b)
    = dir b || existsb (λ p, match os_Stat p with StatInfo true => true | _ => false end) ps
  ∧ stream (Path ps b) = stream b
  ∧ sameSelection b (Path ps b).
Proof.
  unfold Path. revert b. induction ps as [|p ps IH]; intros b.
  - simpl. rewrite !app_nil_r, orb_false_r. by unfold sameSelection.
  - cbn [fold_left]. destruct (IH (Path1 b p)) as (Hp & He & Hd & Hst & Hsel).
    rewrite Hp, He, Hd, Hst. clear Hp He Hd Hst IH.
    assert (Hcoe : continueOnError (Path1 b p) = continueOnError b).
    { unfold Path1. by destruct (os_Stat p) as [|e|[|]]. }
    rewrite Hcoe.
    assert (Hstep : sameSelection b (Path1 b p)).
    { unfold Path1, sameSelection. by destruct (os_Stat p) as [|e|[|]]. }
    assert (Hall : sameSelection b (fold_left Path1 ps (Path1 b p)))
      by (by apply sameSelection_trans with (Path1 b p)).
    refine (conj _ (conj _ (conj _ (conj _ Hall)))); clear Hall Hstep Hsel Hcoe;
      cbn [omap list_omap existsb]; unfold Path1;
      destruct (os_Stat p) as [|e|[|]]; simpl;
      rewrite <- ?app_assoc, ?orb_true_r, ?orb_false_r; done.
Qed.

End Sources.

Section Configurations.
Context `{C : Collaborators}.

Implicit Types (b : Builder).

(** *** Recorded errors stay *)

Lemma errs_prefix_combinedTuples (args : list string) b :
  errs b `prefix_of` errs (combinedTuples args b)
  ∧ sameSources b (combinedTuples args b).
Proof.
  revert b. induction args as [|s args IH]; intros b; simpl; [done|].
  destruct (negb (length (strings_Split s "/"%char) =? 2)).
  { split; [by apply prefix_app_r | done]. }
  destruct ((String.length (nth 0 (strings_Split s "/"%char) "") =? 0)
            || (String.length (nth 1 (strings_Split s "/"%char) "") =? 0)
            || negb (length (SplitResourceArgument (nth 0 (strings_Split s "/"%char) "")) =? 1)).
  { split; [by apply prefix_app_r | done]. }
  match goal with |- context [combinedTuples args ?b'] => exact (IH b') end.
Qed.

Lemma errs_prefix_ResourceTypeOrNameArgs b (allowEmptySelector : bool) (args : list string) :
  errs b `prefix_of` errs (ResourceTypeOrNameArgs allowEmptySelector args b)
  ∧ sameSources b (ResourceTypeOrNameArgs allowEmptySelector args b).
Proof.
  unfold ResourceTypeOrNameArgs.
  set (args' := replaceAliases args). clearbody args'.
  destruct (hasCombinedTypeArgs args') as [[|] [e|]].
  - split; [by apply prefix_app_r | done].
  - apply errs_prefix_combinedTuples.
  - destruct (2 <? length args'); [done|]. destruct (length args' =? 2); [done|].
    destruct (length args' =? 1).
    { by destruct (negb (notNil (selector (ResourceTypes _ b))) && allowEmptySelector). }
    destruct (length args' =? 0); [done|]. split; [by apply prefix_app_r | done].
  - destruct (2 <? length args'); [done|]. destruct (length args' =? 2); [done|].
    destruct (length args' =? 1).
    { by destruct (negb (notNil (selector (ResourceTypes _ b))) && allowEmptySelector). }
    destruct (length args' =? 0); [done|]. split; [by apply prefix_app_r | done].
Qed.

Lemma errs_prefix_applyCall b (c : Call) : errs b `prefix_of` errs (applyCall b c).
Proof.
  destruct c; simpl; try done.
  - apply (FilenameParam_steps ps b).
  - apply (accountsFor_URL b urls).
  - apply (accountsFor_fold Path1 ps), accountsFor_Path1.
  - unfold SelectorParam. destruct (labels_Parse s) as [e|sel]; [by apply prefix_app_r|].
    destruct (selector_Empty sel); [done|].
    destruct (selectAll b); [by apply prefix_app_r | done].
  - unfold SelectAllParam. destruct (all && notNil (selector b)); [by apply prefix_app_r | done].
  - apply errs_prefix_ResourceTypeOrNameArgs.
  - unfold ResourceTypeAndNameArgs. destruct (length args =? 2); [done|].
    destruct (length args =? 0); [done | by apply prefix_app_r].
Qed.

Lemma errs_prefix_calls (cs : list Call) b :
  errs b `prefix_of` errs (fold_left applyCall cs b).
Proof.
  revert b. induction cs as [|c cs IH]; intros b; simpl; [done|].
  etrans; [apply errs_prefix_applyCall | apply IH].
Qed.

(** X9: a recorded error stays: whatever configuration calls follow, the
    errors recorded so far remain, in order, at the head of the list, and
    evaluation fails with the aggregate of the list without making any
    call. No later call repairs a builder that has recorded an error. *)
Theorem recorded_errors_stay b (cs : list Call) :
  errs b ≠ [] →
  ∃ more,
    errs (fold_left applyCall cs b) = errs b ++ more
    ∧ visitorResult (fold_left applyCall cs b)
      = ({| singular := false; err := Some (Aggregate (errs b ++ more));
            visitor := NilVisitor; sources := [] |}, []).
Proof.
  intros Hne. destruct (errs_prefix_calls cs b) as [more Hmore].
  exists more. split; [done|].
  unfold visitorResult. rewrite Hmore.
  destruct (errs b) as [|e es]; [done|]. reflexivity.
Qed.

(** *** What the flags say about the sources *)

Lemma sourceFlags_frame b b' : sameSources b b' → sourceFlags b → sourceFlags b'.
Proof. intros (Hp & Hd & Hs). unfold sourceFlags. by rewrite Hp, Hd, Hs. Qed.

Lemma sourceFlags_source b (v : Visitor) b' :
  paths b' = paths b ++ [v] → isSource v = true →
  dir b' = dir b || isDirectoryVisitor v →
  stream b' = stream b || isStreamVisitor v →
  sourceFlags b → sourceFlags b'.
Proof.
  intros Hp Hv Hd Hs (Hall & Hdir & Hstream). unfold sourceFlags.
  rewrite Hp, Hd, Hs, !existsb_app, Hdir, Hstream. simpl. rewrite !orb_false_r.
  split_and!; [|done..]. apply Forall_app. split; [done|]. by constructor.
Qed.

Lemma sourceFlags_fold {A} (f : Builder → A → Builder) (l : list A) b :
  (∀ b a, sourceFlags b → sourceFlags (f b a)) →
  sourceFlags b → sourceFlags (fold_left f l b).
Proof.
  intros Hf. revert b. induction l as [|a l IH]; intros b Hb; simpl; [done|].
  apply IH. by apply Hf.
Qed.

Lemma sourceFlags_Stream b (r : io_Reader) (name : string) :
  sourceFlags b → sourceFlags (Stream r name b).
Proof.
  apply sourceFlags_source with (v := NewStreamVisitor r name (continueOnError b));
    simpl; rewrite ?orb_true_r, ?orb_false_r; done.
Qed.

Lemma sourceFlags_URL b (urls : list url_URL) : sourceFlags b → sourceFlags (URL urls b).
Proof.
  apply sourceFlags_fold. intros b0 u.
  apply sourceFlags_source with (v := URLVisitor u);
    simpl; rewrite ?orb_true_r, ?orb_false_r; done.
Qed.

Lemma sourceFlags_Path b (ps : list string) : sourceFlags b → sourceFlags (Path ps b).
Proof.
  apply sourceFlags_fold. intros b0 p. unfold Path1.
  destruct (os_Stat p) as [|e|[|]].
  - by apply sourceFlags_frame.
  - by apply sourceFlags_frame.
  - apply sourceFlags_source
      with (v := DirectoryVisitor p [".json"; ".yaml"] false (continueOnError b0));
      simpl; rewrite ?orb_true_r, ?orb_false_r; done.
  - apply sourceFlags_source with (v := PathVisitor p (continueOnError b0));
      simpl; rewrite ?orb_true_r, ?orb_false_r; done.
Qed.

Lemma sourceFlags_applyCall b (c : Call) : sourceFlags b → sourceFlags (applyCall b c).
Proof.
  intros Hb. destruct c; simpl;
    try (by apply sourceFlags_frame with (b := b)).
  - revert Hb. apply sourceFlags_fold. intros b0 s Hb0. unfold FilenameParam1.
    destruct (String.eqb s "-"); [by apply sourceFlags_Stream|].
    destruct (strings_IndexIsZero s "http://" || strings_IndexIsZero s "https://").
    + destruct (url_Parse s) as [e|u]; [by apply sourceFlags_frame with (b := b0)|].
      by apply sourceFlags_URL.
    + by apply sourceFlags_Path.
  - by apply sourceFlags_URL.
  - by apply sourceFlags_Stream.
  - by apply sourceFlags_Stream.
  - by apply sourceFlags_Path.
  - apply sourceFlags_frame with (b := b); [|done]. unfold SelectorParam.
    destruct (labels_Parse s) as [e|sel]; [done|].
    destruct (selector_Empty sel); [done|]. by destruct (selectAll b).
  - apply sourceFlags_frame with (b := b); [|done]. unfold SelectAllParam.
    by destruct (all && notNil (selector b)).
  - apply sourceFlags_frame with (b := b); [|done].
    apply errs_prefix_ResourceTypeOrNameArgs.
  - apply sourceFlags_frame with (b := b); [|done]. unfold ResourceTypeAndNameArgs.
    destruct (length args =? 2); [done|]. by destruct (length args =? 0).
Qed.

Lemma sourceFlags_configure (cs : list Call) : sourceFlags (configure cs).
Proof.
  unfold configure. apply sourceFlags_fold; [apply sourceFlags_applyCall|].
  unfold sourceFlags. simpl. split_and!; [constructor | done | done].
Qed.

(** X10: in every builder made by the configuration methods the flags
    [dir] and [stream] say exactly whether a directory or a stream is among
    the sources; hence, in path mode, the result is singular iff the one
    and only source is a single file or a single URL. *)
Theorem path_mode_singular (cs : list Call) :
  sourceFlags (configure cs)
  ∧ (pathConfiguration (configure cs) →
     (singular (visitorResult (configure cs)).1 = true
      ↔ ∃ v, paths (configure cs) = [v] ∧ isFileOrURL v = true)).
Proof.
  pose proof (sourceFlags_configure cs) as Hflags. split; [done|].
  set (b := configure cs) in *. clearbody b. intros Hpath.
  rewrite (visitorResult_paths b Hpath).
  destruct Hpath as (_ & _ & _ & _ & _ & Hr & _).
  destruct Hflags as (Hall & Hdir & Hstream).
  unfold visitPaths. rewrite Hr, Hdir, Hstream. simpl.
  destruct (paths b) as [|v [|v' vs]]; simpl.
  - split; [done|]. by intros (v & Hv & _).
  - apply Forall_cons in Hall as [Hv _].
    destruct v; simpl in *; try discriminate;
      first [ split; [done|]; by intros (v0 & [= <-] & Hfile)
            | split; [|done]; intros _; by eexists ].
  - rewrite !andb_false_r. split; [done|]. by intros (v0 & Hv0 & _).
Qed.

End Configurations.

Section Evaluation.
Context `{C : Collaborators}.

Implicit Types (b : Builder).

(** *** Resolution of resource types *)

Lemma resolutionCalls_resolved (r : string) (mapping : RESTMapping) :
  resolvesTo r mapping →
  ∃ version kind,
    VersionAndKindForResource r = inr (version, kind)
    ∧ mapper_RESTMapping kind version = inr mapping
    ∧ resolutionCalls r
      = [CallVersionAndKindForResource r; CallRESTMapping kind version].
Proof.
  intros (version & kind & Hvk & Hm). exists version, kind.
  unfold resolutionCalls. by rewrite Hvk.
Qed.

Lemma resourceMappingsLoop_resolved (rs : list string) (ms acc : list RESTMapping) :
  Forall2 resolvesTo rs ms →
  resourceMappingsLoop rs acc = (inr (acc ++ ms), flat_map resolutionCalls rs).
Proof.
  intros H. revert acc. induction H as [|r m rs ms Hr _ IH]; intros acc; simpl.
  - by rewrite app_nil_r.
  - destruct (resolutionCalls_resolved r m Hr) as (version & kind & Hvk & Hm & ->).
    unfold callVersionAndKindForResource, callRESTMapping, call.
    rewrite Hvk. simpl. rewrite Hm. simpl. rewrite IH. by rewrite <- app_assoc.
Qed.

Lemma resourceMappingsLoop_fails (before : list string) (r : string) (after : list string)
    (msg : string) (ms acc : list RESTMapping) :
  Forall2 resolvesTo before ms → failsWith r msg →
  resourceMappingsLoop (before ++ r :: after) acc
  = (inl (Foreign msg), flat_map resolutionCalls (before ++ [r])).
Proof.
  intros H Hfail. revert acc. induction H as [|r0 m rs ms Hr _ IH]; intros acc; simpl.
  - unfold callVersionAndKindForResource, callRESTMapping, call, resolutionCalls.
    destruct Hfail as [Hvk | (version & kind & Hvk & Hm)]; rewrite Hvk; simpl; [done|].
    by rewrite Hm.
  - destruct (resolutionCalls_resolved r0 m Hr) as (version & kind & Hvk & Hm & ->).
    unfold callVersionAndKindForResource, callRESTMapping, call.
    rewrite Hvk. simpl. rewrite Hm. simpl. by rewrite IH.
Qed.

(** X11: when the single-type policy does not stop it, [resourceMappings]
    resolves the resource types in order: if all resolve, it returns their
    mappings in the order of the types; otherwise it returns the error of
    the first type that fails and asks the registry about none of the types
    after it. *)
Theorem resourceMappings_in_order b :
  (1 <? length (resources b)) && singleResourceType b = false →
  (∀ ms, Forall2 resolvesTo (resources b) ms →
         resourceMappings b = (inr ms, flat_map resolutionCalls (resources b)))
  ∧ (∀ before r after msg ms,
        resources b = before ++ r :: after →
        Forall2 resolvesTo before ms → failsWith r msg →
        resourceMappings b
        = (inl (Foreign msg), flat_map resolutionCalls (before ++ [r]))).
Proof.
  intros Hpolicy. unfold resourceMappings. rewrite Hpolicy. split.
  - intros ms Hms. by rewrite (resourceMappingsLoop_resolved _ ms []).
  - intros before r after msg ms -> Hbefore Hfail.
    by apply resourceMappingsLoop_fails with ms.
Qed.

(** *** The branches of evaluation *)

(** X12: a builder without recorded errors, selector, "select all", tuples,
    names and sources cannot be evaluated, whatever resource types,
    namespace and flags it has: resource types alone select nothing. *)
Theorem visitorResult_nothing_to_do b :
  errs b = [] → populatedModes b = 0 →
  visitorResult b = (errorResult false errNothingToDo, []).
Proof.
  intros He. unfold populatedModes, selectorMode, tupleMode, nameMode, pathMode,
    visitorResult, withSelectAll. rewrite He.
  destruct (selectAll b), (selector b), (resourceTuples b), (names b), (paths b);
    simpl; intros; (done || lia).
Qed.

Lemma selectorVisitors_made b (sel : labels_Selector) (ms : list RESTMapping)
    (cs : list RESTClient) (acc : list Visitor) :
  Forall2 (λ m c, ClientForMapping m = inr c) ms cs →
  selectorVisitors b sel ms acc
  = (inr (acc ++ selectorsOf b sel ms cs), map CallClientForMapping ms).
Proof.
  intros H. revert acc. induction H as [|m c ms cs Hc _ IH]; intros acc; simpl.
  - by rewrite app_nil_r.
  - unfold callClientForMapping, call. rewrite Hc. simpl. rewrite IH.
    unfold selectorsOf. simpl. rewrite <- app_assoc. simpl.
    by destruct (namespaced m).
Qed.

(** X13: selector mode. With a selector (or "select all", which stands for
    the everything selector), resource types that all resolve and a client
    for each mapping, the result has one selector visitor per resource
    type, in order, each on the builder's namespace or, for a type that is
    not namespaced, on the empty namespace; the list is eager iff
    continue-on-error is set, the result is not singular, and one client is
    made per resource type. *)
Theorem visitorResult_selector_mode b (sel : labels_Selector)
    (ms : list RESTMapping) (cs : list RESTClient) :
  errs b = [] → names b = [] → resourceTuples b = [] → paths b = [] →
  resources b ≠ [] →
  (1 <? length (resources b)) && singleResourceType b = false →
  (selectAll b = true ∧ sel = labels_Everything)
  ∨ (selectAll b = false ∧ selector b = Some sel) →
  Forall2 resolvesTo (resources b) ms →
  Forall2 (λ m c, ClientForMapping m = inr c) ms cs →
  visitorResult b
  = ({| singular := false; err := None;
        visitor := if continueOnError b then EagerVisitorList (selectorsOf b sel ms cs)
                   else VisitorList (selectorsOf b sel ms cs);
        sources := selectorsOf b sel ms cs |},
     flat_map resolutionCalls (resources b) ++ map CallClientForMapping ms).
Proof.
  intros He Hn Ht Hp Hr Hpolicy Hsel Hms Hcs.
  assert (Hbranch : ∀ b', selector b' = Some sel → errs b = [] →
             names b' = [] → resourceTuples b' = [] → paths b' = [] →
             resources b' = resources b → singleResourceType b' = singleResourceType b →
             namespace b' = namespace b → continueOnError b' = continueOnError b →
             returned (visitSelector b' sel)
             = ({| singular := false; err := None;
                   visitor := if continueOnError b
                              then EagerVisitorList (selectorsOf b sel ms cs)
                              else VisitorList (selectorsOf b sel ms cs);
                   sources := selectorsOf b sel ms cs |},
                flat_map resolutionCalls (resources b) ++ map CallClientForMapping ms)).
  { intros b' Hs' _ Hn' Ht' Hp' Hr' Hsrt' Hns' Hcoe'.
    unfold visitSelector. rewrite Hn', Ht', Hp', Hr'. simpl.
    destruct (resources b) as [|r rs] eqn:Hres; [done|]. cbn [length Nat.eqb].
    unfold resourceMappings. rewrite Hr', Hsrt', Hpolicy.
    rewrite (resourceMappingsLoop_resolved _ ms []) by done. cbn [orExit bind app].
    rewrite (selectorVisitors_made b' sel ms cs []) by done. cbn [app].
    assert (selectorsOf b' sel ms cs = selectorsOf b sel ms cs) as ->
        by (unfold selectorsOf; by rewrite Hns').
    rewrite Hcoe'. destruct (continueOnError b); simpl; by rewrite app_nil_r. }
  unfold visitorResult, withSelectAll. rewrite He. simpl.
  destruct Hsel as [[Hall ->] | [Hall Hsel]]; rewrite Hall.
  - simpl. by apply Hbranch.
  - rewrite Hsel. by apply Hbranch.
Qed.

(** X14: name mode with a resource type the registry does not know fails
    with the registry's error before any client is made and before any
    fetch: the only calls are those of the failed resolution. The result
    still says whether one name was given. *)
Theorem visitorResult_name_mode_unknown_type b (r msg : string) :
  errs b = [] → selectAll b = false → selector b = None →
  resourceTuples b = [] → paths b = [] → names b ≠ [] →
  resources b = [r] → failsWith r msg →
  visitorResult b
  = (errorResult (length (names b) =? 1) (Foreign msg), resolutionCalls r).
Proof.
  intros He Hall Hsel Ht Hp Hn Hr Hfail.
  unfold visitorResult, withSelectAll. rewrite He, Hall, Hsel, Ht. simpl.
  destruct (names b) as [|n ns] eqn:Hnames; [done|]. cbn [length Nat.eqb negb].
  unfold visitNames. rewrite Hp, Hr, Hnames. cbn [length Nat.eqb Nat.ltb Nat.leb negb].
  unfold resourceMappings. rewrite Hr. cbn [length Nat.ltb Nat.leb andb].
  pose proof (resourceMappingsLoop_fails [] r [] msg [] []
                ltac:(constructor) Hfail) as Hloop.
  cbn [app] in Hloop. rewrite Hloop.
  simpl. by rewrite app_nil_r.
Qed.

(** X15: name mode on a namespaced resource type without a namespace fails
    with "namespace may not be empty when retrieving a resource by name"
    after the client is made and before any name is fetched. *)
Theorem visitorResult_name_mode_needs_namespace b (r version kind : string)
    (mapping : RESTMapping) (client : RESTClient) :
  errs b = [] → selectAll b = false → selector b = None →
  resourceTuples b = [] → paths b = [] → names b ≠ [] →
  resources b = [r] →
  VersionAndKindForResource r = inr (version, kind) →
  mapper_RESTMapping kind version = inr mapping →
  ClientForMapping mapping = inr client →
  namespaced mapping = true → namespace b = "" →
  visitorResult b
  = (errorResult (length (names b) =? 1) errNamespaceEmpty,
     [CallVersionAndKindForResource r; CallRESTMapping kind version;
      CallClientForMapping mapping]).
Proof.
  intros He Hall Hsel Ht Hp Hn Hr Hvk Hm Hc Hscope Hns.
  unfold visitorResult, withSelectAll. rewrite He, Hall, Hsel, Ht. simpl.
  destruct (names b) as [|n ns] eqn:Hnames; [done|]. cbn [length Nat.eqb negb].
  unfold visitNames. rewrite Hp, Hr, Hnames. cbn [length Nat.eqb Nat.ltb Nat.leb negb].
  rewrite (resourceMappings_one b r version kind mapping Hr Hvk Hm).
  cbn [orExit bind]. unfold callClientForMapping, call. rewrite Hc.
  cbn [orExit bind]. rewrite Hscope, Hns. reflexivity.
Qed.

End Evaluation.

Section Results.
Context `{C : Collaborators}.

Implicit Types (b : Builder) (r : Result).

(** *** The shape of every result *)

Lemma sound_errorResult (isSingular : bool) (e : error) :
  ¬ isLookupError e → sound (errorResult isSingular e).
Proof. intros He. split; [done|]. by intros e' [= <-]. Qed.

Lemma sound_Foreign (isSingular : bool) (msg : string) :
  sound (errorResult isSingular (Foreign msg)).
Proof. apply sound_errorResult. by intros (args & [?|?]). Qed.

Ltac sound_exit :=
  apply sound_errorResult; intros (args & [H|H]); discriminate H.

Lemma resourceMappings_sound b (isSingular : bool) :
  ends sound (λ l, length l = length (resources b))
    (orExit (resourceMappings b) (errorResult isSingular)).
Proof.
  apply ends_orExit. unfold resourceMappings.
  destruct ((1 <? length (resources b)) && singleResourceType b).
  { unfold ends. simpl. sound_exit. }
  eapply ends_weaken; [| |apply resourceMappingsLoop_outcome]; simpl.
  - intros e [msg ->]. apply sound_Foreign.
  - done.
Qed.

Lemma callClientForMapping_sound (mapping : RESTMapping) :
  ends sound (λ _, True) (orExit (callClientForMapping mapping) (errorResult false)).
Proof.
  apply ends_orExit, ends_call; [|done]. intros msg _. apply sound_Foreign.
Qed.

Lemma selectorVisitors_sound b (sel : labels_Selector)
    (mappings : list RESTMapping) (visitors : list Visitor) :
  ends sound (λ vs, length vs = length visitors + length mappings)
    (selectorVisitors b sel mappings visitors).
Proof.
  revert visitors. induction mappings as [|mapping rest IH]; intros visitors; simpl.
  - unfold ends. simpl. lia.
  - eapply ends_bind; [apply callClientForMapping_sound|]. intros client _.
    eapply ends_weaken; [| |apply IH]; [done|].
    intros vs ->. rewrite length_app. simpl. lia.
Qed.

Lemma visitSelector_sound b (sel : labels_Selector) :
  ends sound sound (visitSelector b sel).
Proof.
  unfold visitSelector.
  destruct (negb (length (names b) =? 0)); [unfold ends; simpl; sound_exit|].
  destruct (negb (length (resourceTuples b) =? 0)); [unfold ends; simpl; sound_exit|].
  destruct (length (resources b) =? 0) eqn:Hres; [unfold ends; simpl; sound_exit|].
  destruct (negb (length (paths b) =? 0)).
  { destruct (selector_Empty sel); unfold ends; simpl; sound_exit. }
  apply Nat.eqb_neq in Hres.
  eapply ends_bind; [apply resourceMappings_sound|]. intros mappings Hlen.
  eapply ends_bind; [apply selectorVisitors_sound|]. intros visitors Hvs.
  simpl in Hvs, Hlen.
  assert (visitors ≠ []) by (intros ->; simpl in Hvs; lia).
  destruct (continueOnError b); by split.
Qed.

Lemma resourceTupleMappingsLoop_keys (ts : list resourceTuple)
    (mappings : gmap string RESTMapping) (canonical : gset string) :
  ends (λ e, ¬ isLookupError e)
    (λ mc, (∀ k, is_Some (mappings !! k) → is_Some (mc.1 !! k))
           ∧ ∀ t, t ∈ ts → is_Some (mc.1 !! tuple_Resource t))
    (resourceTupleMappingsLoop ts mappings canonical).
Proof.
  revert mappings canonical.
  induction ts as [|t ts IH]; intros mappings canonical; simpl.
  { unfold ends. simpl. split; [done|]. intros t Ht. by apply elem_of_nil in Ht. }
  destruct (mappings !! tuple_Resource t) as [v0|] eqn:Hraw.
  { eapply ends_weaken; [| |apply IH]; [done|]. intros mc [Hmono Hts].
    split; [done|]. intros t' Ht'. apply elem_of_cons in Ht' as [->|Ht']; [|by apply Hts].
    apply Hmono. by rewrite Hraw. }
  unfold callVersionAndKindForResource, callRESTMapping, call.
  destruct (VersionAndKindForResource (tuple_Resource t)) as [msg|[version kind]]; simpl.
  { unfold ends. simpl. by intros (args & [?|?]). }
  destruct (mapper_RESTMapping kind version) as [msg|mapping]; simpl.
  { unfold ends. simpl. by intros (args & [?|?]). }
  match goal with
  | |- context [resourceTupleMappingsLoop ts ?m ?c] =>
      pose proof (IH m c) as Hrest; unfold ends in Hrest |- *;
      destruct (resourceTupleMappingsLoop ts m c) as [[e|mc] calls]
  end; simpl in *; [done|].
  destruct Hrest as [Hmono Hts]. split.
  - intros k Hk. apply Hmono.
    rewrite !lookup_insert_is_Some. destruct (decide (tuple_Resource t = k)); [by left|].
    right. split; [done|]. destruct (decide (Resource mapping = k)); [by left|].
    right. by split.
  - intros t' Ht'. apply elem_of_cons in Ht' as [->|Ht']; [|by apply Hts].
    apply Hmono. rewrite lookup_insert_is_Some. by left.
Qed.

Lemma resourceTupleMappings_keys b :
  ends (λ e, ¬ isLookupError e)
    (λ mappings, ∀ t, t ∈ resourceTuples b → is_Some (mappings !! tuple_Resource t))
    (resourceTupleMappings b).
Proof.
  unfold resourceTupleMappings.
  eapply ends_bind; [apply resourceTupleMappingsLoop_keys|].
  intros [mappings canonical] [_ Hts]. unfold singleTypeCheck. simpl.
  destruct ((1 <? size canonical) && singleResourceType b); [|done].
  unfold ends. simpl. by intros (args & [?|?]).
Qed.

Lemma tupleClients_keys (mappings : list RESTMapping) (clients : gmap string RESTClient) :
  ends sound
    (λ clients', (∀ key, is_Some (clients !! key) → is_Some (clients' !! key))
                 ∧ ∀ m, m ∈ mappings → is_Some (clients' !! clientKey m))
    (tupleClients mappings clients).
Proof.
  revert clients. induction mappings as [|mapping rest IH]; intros clients; simpl.
  { unfold ends. simpl. split; [done|]. intros m Hm. by apply elem_of_nil in Hm. }
  destruct (clients !! clientKey mapping) as [c0|] eqn:Hkey.
  { eapply ends_weaken; [| |apply IH]; [done|]. intros clients' [Hmono Hrest].
    split; [done|]. intros m Hm. apply elem_of_cons in Hm as [->|Hm]; [|by apply Hrest].
    apply Hmono. by rewrite Hkey. }
  eapply ends_bind; [apply callClientForMapping_sound|]. intros client _.
  eapply ends_weaken; [| |apply IH]; [done|]. intros clients' [Hmono Hrest].
  split.
  - intros key Hk. apply Hmono. rewrite lookup_insert_is_Some.
    destruct (decide (clientKey mapping = key)); [by left|]. right. by split.
  - intros m Hm. apply elem_of_cons in Hm as [->|Hm]; [|by apply Hrest].
    apply Hmono. rewrite lookup_insert_is_Some. by left.
Qed.

Lemma tupleItems_sound b (isSingular : bool) (mappings : gmap string RESTMapping)
    (clients : gmap string RESTClient) (ts : list resourceTuple) (items : list Visitor) :
  (∀ t, t ∈ ts → is_Some (mappings !! tuple_Resource t)) →
  (∀ key m, mappings !! key = Some m → is_Some (clients !! clientKey m)) →
  ends sound (λ vs, length vs = length items + length ts)
    (tupleItems b isSingular mappings clients ts items).
Proof.
  intros Hts Hclients. revert items.
  induction ts as [|tuple rest IH]; intros items; simpl.
  { unfold ends. simpl. lia. }
  destruct (Hts tuple) as [mapping Hm]; [apply elem_of_cons; by left|]. rewrite Hm.
  destruct (Hclients _ _ Hm) as [client Hc]. rewrite Hc.
  destruct (namespaced mapping && (String.length (namespace b) =? 0)).
  { unfold ends. simpl. sound_exit. }
  eapply ends_weaken; [| |apply IH]; [done| |].
  - intros vs ->. rewrite length_app. simpl. lia.
  - intros t Ht. apply Hts. apply elem_of_cons. by right.
Qed.

Lemma visitTuples_sound b : resourceTuples b ≠ [] → ends sound sound (visitTuples b).
Proof.
  intros Hne. unfold visitTuples.
  destruct (negb (length (paths b) =? 0)); [unfold ends; simpl; sound_exit|].
  destruct (negb (length (resources b) =? 0)); [unfold ends; simpl; sound_exit|].
  eapply ends_bind.
  { apply ends_orExit. eapply ends_weaken; [| |apply resourceTupleMappings_keys].
    - intros e He. by apply sound_errorResult.
    - intros mappings H. exact H. }
  intros mappings Hkeys.
  eapply ends_bind; [apply tupleClients_keys|]. intros clients [_ Hclients].
  eapply ends_bind.
  { apply tupleItems_sound; [done|]. intros key m Hm. apply Hclients.
    apply list_elem_of_fmap. exists (key, m). split; [done|].
    by apply elem_of_map_to_list. }
  intros items Hitems. simpl in Hitems.
  assert (items ≠ []).
  { intros ->. destruct (resourceTuples b); [done|]. simpl in Hitems. lia. }
  destruct (continueOnError b); by split.
Qed.

Lemma nameVisitors_sound (isSingular : bool) client mapping (sns : string)
    (ns : list string) (visitors : list Visitor) :
  ends sound (λ vs, length vs = length visitors + length ns)
    (nameVisitors isSingular client mapping sns ns visitors).
Proof.
  revert visitors. induction ns as [|name rest IH]; intros visitors; simpl.
  { unfold ends. simpl. lia. }
  eapply ends_bind with (Q' := λ _, True).
  { apply ends_orExit. unfold Info_Get.
    eapply ends_bind with (Q' := λ _, True); [|done].
    apply ends_call; [|done]. intros msg _. apply sound_Foreign. }
  intros info _. eapply ends_weaken; [| |apply IH]; [done|].
  intros vs ->. rewrite length_app. simpl. lia.
Qed.

Lemma visitNames_sound b : names b ≠ [] → ends sound sound (visitNames b).
Proof.
  intros Hne. unfold visitNames.
  destruct (negb (length (paths b) =? 0)); [unfold ends; simpl; sound_exit|].
  destruct (length (resources b) =? 0) eqn:Hzero; [unfold ends; simpl; sound_exit|].
  destruct (1 <? length (resources b)); [unfold ends; simpl; sound_exit|].
  apply Nat.eqb_neq in Hzero.
  eapply ends_bind; [apply resourceMappings_sound|].
  intros [|mapping mappings] Hlen; [simpl in Hlen; lia|].
  eapply ends_bind; [apply callClientForMapping_sound|]. intros client _.
  destruct (namespaced mapping && (String.length (namespace b) =? 0)).
  { unfold ends. simpl. sound_exit. }
  eapply ends_bind; [apply nameVisitors_sound|]. intros visitors Hvs. simpl in Hvs.
  assert (visitors ≠ []).
  { intros ->. destruct (names b); [done|]. simpl in Hvs. lia. }
  by split.
Qed.

Lemma visitPaths_sound b : paths b ≠ [] → ends sound sound (visitPaths b).
Proof.
  intros Hne. unfold visitPaths.
  destruct (negb (length (resources b) =? 0)); [unfold ends; simpl; sound_exit|].
  unfold ends. simpl. split; [|done]. unfold wellShaped. simpl. split; [|done].
  by destruct (latest b), (continueOnError b).
Qed.

Lemma visitorResult_sound b : sound (visitorResult b).1.
Proof.
  unfold visitorResult. apply (ends_returned sound).
  destruct (0 <? length (errs b)).
  { unfold ends. simpl. apply sound_errorResult. by intros (args & [?|?]). }
  destruct (selector (withSelectAll b)) as [sel|]; [apply visitSelector_sound|].
  unfold withSelectAll. destruct (selectAll b); simpl.
  - destruct (length (resourceTuples b) =? 0) eqn:Ht; simpl.
    2:{ apply visitTuples_sound. simpl. intros H0. by rewrite H0 in Ht. }
    destruct (length (names b) =? 0) eqn:Hn; simpl.
    2:{ apply visitNames_sound. simpl. intros H0. by rewrite H0 in Hn. }
    destruct (length (paths b) =? 0) eqn:Hp; simpl.
    2:{ apply visitPaths_sound. simpl. intros H0. by rewrite H0 in Hp. }
    unfold ends. simpl. sound_exit.
  - destruct (length (resourceTuples b) =? 0) eqn:Ht; simpl.
    2:{ apply visitTuples_sound. intros H0. by rewrite H0 in Ht. }
    destruct (length (names b) =? 0) eqn:Hn; simpl.
    2:{ apply visitNames_sound. intros H0. by rewrite H0 in Hn. }
    destruct (length (paths b) =? 0) eqn:Hp; simpl.
    2:{ apply visitPaths_sound. intros H0. by rewrite H0 in Hp. }
    unfold ends. simpl. sound_exit.
Qed.

(** X16: every result, of [visitorResult] and of [Do], whatever the builder
    and the collaborators, either carries an error and then neither a
    visitor nor sources, or carries no error and then a visitor and at
    least one source. *)
Theorem results_are_well_shaped b :
  wellShaped (visitorResult b).1 ∧ wellShaped (Do b).1.
Proof.
  pose proof (visitorResult_sound b) as [Hshape _]. split; [done|].
  unfold Do. destruct (visitorResult b) as [r calls]. simpl in *.
  unfold wellShaped in *. destruct (err r) as [e|] eqn:Herr; simpl.
  - by rewrite Herr.
  - destruct Hshape as [_ Hsources].
    destruct (flatten b); simpl; rewrite Herr; by split.
Qed.

(** X17: the two errors for a tuple whose resource is missing from the
    mapping table or whose client is missing from the client table
    ("resource ... is not recognized", "could not find a client for
    resource ...") never come out of evaluation: the tables always hold an
    entry for every tuple. *)
Theorem lookup_errors_never_occur b (e : error) :
  err (visitorResult b).1 = Some e ∨ err (Do b).1 = Some e → ¬ isLookupError e.
Proof.
  pose proof (visitorResult_sound b) as [_ Hclean].
  intros [He|He]; [by apply Hclean|]. apply Hclean.
  unfold Do in He. destruct (visitorResult b) as [r calls]. simpl in *.
  destruct (err r) as [e'|] eqn:Herr; simpl in He; [by rewrite Herr in He|].
  destruct (flatten b); simpl in He; by rewrite Herr in He.
Qed.

End Results.

Section Calls.
Context `{C : Collaborators}.

Implicit Types (b : Builder).

(** *** When objects are fetched *)

Lemma logs_bind {X A B} (L : Event → Prop) (m : Run X A) (k : A → Run X B) :
  logs L m → (∀ a, logs L (k a)) → logs L (bind m k).
Proof.
  unfold logs, bind. destruct m as [[x|a] calls]; simpl; [done|].
  intros Hm Hk. specialize (Hk a). destruct (k a) as [res calls']. simpl in *.
  apply Forall_app. by split.
Qed.

Lemma logs_orExit {E X A} (L : Event → Prop) (m : Run E A) (h : E → X) :
  logs L m → logs L (orExit m h).
Proof. unfold logs, orExit. by destruct m as [[x|a] calls]. Qed.

Lemma logs_call {A} (L : Event → Prop) (ev : Event) (r : string + A) :
  L ev → logs L (call ev r).
Proof. intros Hev. unfold logs, call. destruct r; simpl; by repeat constructor. Qed.

Lemma logs_weaken {X A} (L L' : Event → Prop) (m : Run X A) :
  (∀ ev, L ev → L' ev) → logs L m → logs L' m.
Proof. unfold logs. intros HL Hm. by eapply Forall_impl. Qed.

Lemma resourceMappings_logs b : logs (λ ev, isGet ev = false) (resourceMappings b).
Proof.
  unfold resourceMappings.
  destruct ((1 <? length (resources b)) && singleResourceType b); [by constructor|].
  generalize (@nil RESTMapping). induction (resources b) as [|r rs IH]; intros acc; simpl;
    [by constructor|].
  apply logs_bind; [by apply logs_call|]. intros [version kind].
  apply logs_bind; [by apply logs_call|]. intros mapping. apply IH.
Qed.

Lemma resourceTupleMappings_logs b :
  logs (λ ev, isGet ev = false) (resourceTupleMappings b).
Proof.
  unfold resourceTupleMappings. apply logs_bind.
  - generalize (∅ : gmap string RESTMapping) (∅ : gset string).
    induction (resourceTuples b) as [|t ts IH]; intros mappings canonical; simpl;
      [by constructor|].
    destruct (mappings !! tuple_Resource t); [apply IH|].
    apply logs_bind; [by apply logs_call|]. intros [version kind].
    apply logs_bind; [by apply logs_call|]. intros mapping. apply IH.
  - intros [mappings canonical]. unfold singleTypeCheck. simpl.
    destruct ((1 <? size canonical) && singleResourceType b); by constructor.
Qed.

Lemma visitSelector_logs b (sel : labels_Selector) :
  logs (λ ev, isGet ev = false) (visitSelector b sel).
Proof.
  unfold visitSelector.
  destruct (negb (length (names b) =? 0)); [by constructor|].
  destruct (negb (length (resourceTuples b) =? 0)); [by constructor|].
  destruct (length (resources b) =? 0); [by constructor|].
  destruct (negb (length (paths b) =? 0)).
  { destruct (selector_Empty sel); by constructor. }
  apply logs_bind; [apply logs_orExit, resourceMappings_logs|]. intros mappings.
  apply logs_bind.
  - generalize (@nil Visitor). induction mappings as [|m ms IH]; intros acc; simpl;
      [by constructor|].
    apply logs_bind; [by apply logs_orExit, logs_call|]. intros client. apply IH.
  - intros visitors. destruct (continueOnError b); by constructor.
Qed.

Lemma tupleItems_logs b (isSingular : bool) (mappings : gmap string RESTMapping)
    (clients : gmap string RESTClient) (ts : list resourceTuple) (acc : list Visitor) :
  logs (λ ev, isGet ev = false) (tupleItems b isSingular mappings clients ts acc).
Proof.
  revert acc. induction ts as [|t ts IH]; intros acc; simpl; [by constructor|].
  destruct (mappings !! tuple_Resource t) as [mapping|]; [|by constructor].
  destruct (clients !! clientKey mapping) as [client|]; [|by constructor].
  destruct (namespaced mapping && (String.length (namespace b) =? 0)); [by constructor|].
  apply IH.
Qed.

Lemma nameVisitors_logs b (isSingular : bool) client mapping (sns : string)
    (ns : list string) (acc : list Visitor) :
  paths b = [] → length (resources b) = 1 → (∀ name, name ∈ ns → name ∈ names b) →
  logs (nameFetch b) (nameVisitors isSingular client mapping sns ns acc).
Proof.
  intros Hp Hr. revert acc. induction ns as [|name ns IH]; intros acc Hsub; simpl;
    [by constructor|].
  apply logs_bind.
  - apply logs_orExit. unfold Info_Get. apply logs_bind; [|intros obj; by constructor].
    apply logs_call. intros _. split_and!; [done | done |].
    exists client, mapping, sns, name. split; [|done].
    apply Hsub, elem_of_cons. by left.
  - intros info. apply IH. intros name' Hname'. apply Hsub, elem_of_cons. by right.
Qed.

Lemma visitTuples_logs b : logs (λ ev, isGet ev = false) (visitTuples b).
Proof.
  unfold visitTuples.
  destruct (negb (length (paths b) =? 0)); [by constructor|].
  destruct (negb (length (resources b) =? 0)); [by constructor|].
  apply logs_bind; [apply logs_orExit, resourceTupleMappings_logs|]. intros mappings.
  apply logs_bind.
  { generalize (∅ : gmap string RESTClient).
    induction ((map_to_list mappings).*2) as [|m ms IH]; intros clients; simpl;
      [by constructor|].
    destruct (clients !! clientKey m); [apply IH|].
    apply logs_bind; [by apply logs_orExit, logs_call|]. intros client. apply IH. }
  intros clients. apply logs_bind; [apply tupleItems_logs | intros items; by constructor].
Qed.

Lemma visitNames_logs b : logs (nameFetch b) (visitNames b).
Proof.
  unfold visitNames.
  destruct (length (paths b) =? 0) eqn:Hp; simpl; [|by constructor].
  destruct (length (resources b) =? 0) eqn:Hzero; [by constructor|].
  destruct (1 <? length (resources b)) eqn:Hmany; [by constructor|].
  apply Nat.eqb_neq in Hzero. apply Nat.ltb_ge in Hmany.
  assert (Hpaths : paths b = []) by (destruct (paths b); [done | discriminate]).
  assert (Hquiet : ∀ ev, isGet ev = false → nameFetch b ev).
  { intros ev Hev Hget. congruence. }
  apply logs_bind.
  { apply logs_orExit. eapply logs_weaken; [exact Hquiet | apply resourceMappings_logs]. }
  intros [|mapping mappings]; [by constructor|].
  apply logs_bind; [by apply logs_orExit, logs_call, Hquiet|]. intros client.
  destruct (namespaced mapping && (String.length (namespace b) =? 0)); [by constructor|].
  apply logs_bind; [|intros visitors; by constructor].
  apply nameVisitors_logs; [done | lia | done].
Qed.

(** X18: objects are fetched during evaluation in name mode only. A fetch
    in the call log of [visitorResult] means that the builder has no
    recorded error, no selector, no "select all", no tuples and no
    sources, has names and exactly one resource type, and that the fetch
    is for the not yet fetched [Info] of one of the names. Selector mode,
    tuple mode and path mode never fetch. *)
Theorem fetches_only_in_name_mode b (info : Info) :
  CallGet info ∈ (visitorResult b).2 →
  errs b = [] ∧ selectAll b = false ∧ selector b = None
  ∧ resourceTuples b = [] ∧ paths b = [] ∧ length (resources b) = 1
  ∧ Name info ∈ names b ∧ Object info = None.
Proof.
  unfold visitorResult.
  assert (Hret : ∀ m : Run Result Result, (returned m).2 = m.2)
    by (by intros [[r|r] calls]).
  rewrite Hret. clear Hret.
  destruct (errs b) as [|e0 es]; simpl; [|by intros Hin; apply elem_of_nil in Hin].
  assert (Hquiet : ∀ m : Run Result Result,
             logs (λ ev, isGet ev = false) m → CallGet info ∈ m.2 → False).
  { intros m Hm Hin. unfold logs in Hm. rewrite Forall_forall in Hm.
    by specialize (Hm _ Hin). }
  unfold withSelectAll. destruct (selectAll b); simpl.
  { intros Hin. destruct (Hquiet _ (visitSelector_logs _ _) Hin). }
  destruct (selector b) as [sel|].
  { intros Hin. destruct (Hquiet _ (visitSelector_logs _ _) Hin). }
  destruct (resourceTuples b) as [|t ts]; simpl.
  2:{ intros Hin. destruct (Hquiet _ (visitTuples_logs _) Hin). }
  destruct (names b) as [|n ns] eqn:Hnames; simpl.
  { destruct (paths b); simpl; [by intros Hin; apply elem_of_nil in Hin|].
    unfold visitPaths. destruct (negb (length (resources b) =? 0)); simpl;
      by intros Hin; apply elem_of_nil in Hin. }
  intros Hin. pose proof (visitNames_logs b) as Hlogs.
  unfold logs in Hlogs. rewrite Forall_forall in Hlogs.
  destruct (Hlogs _ Hin eq_refl) as (Hp & Hr & client & mapping & sns & name & Hname & [= ->]).
  rewrite Hnames in Hname. by split_and!.
Qed.

(** *** Tuple mode *)

Lemma tupleClients_made (mappings : list RESTMapping) (clients : gmap string RESTClient) :
  (∀ mapping, ∃ client, ClientForMapping mapping = inr client) →
  ∃ made clients',
    tupleClients mappings clients = (inr clients', map CallClientForMapping made)
    ∧ NoDup (clientKey <$> made)
    ∧ (∀ m, m ∈ made → clients !! clientKey m = None)
    ∧ (∀ key c, clients' !! key = Some c →
                clients !! key = Some c
                ∨ ∃ m, m ∈ made ∧ clientKey m = key ∧ ClientForMapping m = inr c)
    ∧ (∀ key, is_Some (clients !! key) → is_Some (clients' !! key))
    ∧ (∀ m, m ∈ mappings → is_Some (clients' !! clientKey m)).
Proof.
  intros Hclient. revert clients.
  induction mappings as [|mapping rest IH]; intros clients; simpl.
  { exists [], clients. split_and!; try done; [constructor | | auto |].
    - intros m Hm. by apply elem_of_nil in Hm.
    - intros m Hm. by apply elem_of_nil in Hm. }
  destruct (clients !! clientKey mapping) as [c0|] eqn:Hkey.
  { destruct (IH clients) as (made & clients' & Heq & Hnd & Hfresh & Horigin & Hmono & Hall).
    exists made, clients'. split_and!; try done.
    intros m Hm. apply elem_of_cons in Hm as [->|Hm]; [|by apply Hall].
    apply Hmono. by rewrite Hkey. }
  destruct (Hclient mapping) as [client Hc].
  destruct (IH (<[clientKey mapping := client]> clients))
    as (made & clients' & Heq & Hnd & Hfresh & Horigin & Hmono & Hall).
  exists (mapping :: made), clients'.
  unfold callClientForMapping, call. rewrite Hc. cbn [orExit bind]. rewrite Heq.
  split_and!; [done | | | | |].
  - rewrite fmap_cons. apply NoDup_cons. split; [|done].
    intros Hin. apply list_elem_of_fmap in Hin as (m & Hm & Hin).
    specialize (Hfresh m Hin). rewrite <- Hm, lookup_insert_eq in Hfresh. done.
  - intros m Hm. apply elem_of_cons in Hm as [->|Hm]; [done|].
    specialize (Hfresh m Hm).
    destruct (decide (clientKey mapping = clientKey m)) as [Heqk|Hne].
    + rewrite Heqk, lookup_insert_eq in Hfresh. done.
    + by rewrite lookup_insert_ne in Hfresh.
  - intros key c Hkc. destruct (Horigin key c Hkc) as [Hold | (m & Hm & Hk & Hcm)].
    + destruct (decide (clientKey mapping = key)) as [<-|Hne].
      * rewrite lookup_insert_eq in Hold. injection Hold as <-.
        right. exists mapping. split_and!; [apply elem_of_cons; by left | done | done].
      * rewrite lookup_insert_ne in Hold by done. by left.
    + right. exists m. split_and!; [apply elem_of_cons; by right | done | done].
  - intros key Hk. apply Hmono. rewrite lookup_insert_is_Some.
    destruct (decide (clientKey mapping = key)); [by left|]. right. by split.
  - intros m Hm. apply elem_of_cons in Hm as [->|Hm]; [|by apply Hall].
    apply Hmono. rewrite lookup_insert_is_Some. by left.
Qed.

Lemma tupleItems_made b (isSingular : bool) (mappings : gmap string RESTMapping)
    (clients : gmap string RESTClient) (ts : list resourceTuple) (acc : list Visitor) :
  namespace b ≠ "" →
  (∀ t, t ∈ ts → is_Some (mappings !! tuple_Resource t)) →
  (∀ key m, mappings !! key = Some m → is_Some (clients !! clientKey m)) →
  ∃ items,
    tupleItems b isSingular mappings clients ts acc = (inr (acc ++ items), [])
    ∧ Forall2 (tupleInfo b mappings clients) ts items.
Proof.
  intros Hns Hts Hclients. revert acc.
  induction ts as [|tuple rest IH]; intros acc; simpl.
  { exists []. rewrite app_nil_r. split; [done | constructor]. }
  destruct (Hts tuple) as [mapping Hm]; [apply elem_of_cons; by left|]. rewrite Hm.
  destruct (Hclients _ _ Hm) as [client Hc]. rewrite Hc.
  assert ((String.length (namespace b) =? 0) = false) as ->
      by (by destruct (namespace b)).
  rewrite andb_false_r.
  destruct (IH (λ t Ht, Hts t ltac:(apply elem_of_cons; by right))
              (acc ++ [InfoVisitor (NewInfo client mapping
                                     (if negb (namespaced mapping) then "" else namespace b)
                                     (tuple_Name tuple))]))
    as (items & Heq & Hitems).
  eexists (_ :: items). rewrite Heq, <- app_assoc. split; [reflexivity|].
  constructor; [|done]. exists mapping, client. split_and!; [done..|].
  by destruct (namespaced mapping).
Qed.

(** X19: tuple mode. When the tuples resolve to the table [mappings],
    every client can be made and the namespace is set, the result has one
    [Info] per tuple, in order, not fetched, with the mapping the table has
    for the tuple's resource; one client is made for each distinct
    API version and resource among the mappings, and the infos with the
    same API version and resource share it; nothing is fetched. *)
Theorem visitorResult_tuple_mode b (mappings : gmap string RESTMapping)
    (calls : list Event) :
  errs b = [] → selectAll b = false → selector b = None →
  resourceTuples b ≠ [] → paths b = [] → resources b = [] →
  resourceTupleMappings b = (inr mappings, calls) →
  (∀ mapping, ∃ client, ClientForMapping mapping = inr client) →
  namespace b ≠ "" →
  ∃ made clients items,
    visitorResult b
    = ({| singular := length (resourceTuples b) =? 1; err := None;
          visitor := if continueOnError b then EagerVisitorList items
                     else VisitorList items;
          sources := items |},
       calls ++ map CallClientForMapping made)
    ∧ NoDup (clientKey <$> made)
    ∧ (∀ key client, clients !! key = Some client →
                     ∃ m, m ∈ made ∧ clientKey m = key ∧ ClientForMapping m = inr client)
    ∧ Forall2 (tupleInfo b mappings clients) (resourceTuples b) items.
Proof.
  intros He Hall Hsel Ht Hp Hr Hmappings Hclient Hns.
  pose proof (resourceTupleMappings_keys b) as Hkeys.
  unfold ends in Hkeys. rewrite Hmappings in Hkeys. simpl in Hkeys.
  destruct (tupleClients_made (map_to_list mappings).*2 ∅ Hclient)
    as (made & clients & Hmade & Hnd & _ & Horigin & _ & Hcovers).
  destruct (tupleItems_made b (length (resourceTuples b) =? 1) mappings clients
              (resourceTuples b) [] Hns Hkeys) as (items & Hitems & Hinfos).
  { intros key m Hm. apply Hcovers. apply list_elem_of_fmap. exists (key, m).
    split; [done|]. by apply elem_of_map_to_list. }
  exists made, clients, items. split_and!; [|done| |done].
  - unfold visitorResult, withSelectAll. rewrite He, Hall, Hsel. simpl.
    destruct (resourceTuples b) as [|t ts] eqn:Htuples; [done|].
    cbn [length Nat.eqb negb]. unfold visitTuples.
    rewrite Hp, Hr, Htuples, Hmappings. cbn [length Nat.eqb negb orExit bind].
    rewrite Hmade. cbn [bind]. cbn [length Nat.eqb] in Hitems. rewrite Hitems. simpl.
    rewrite !app_nil_r. by destruct (continueOnError b).
  - intros key client Hk. destruct (Horigin key client Hk) as [Hempty|Hm]; [|done].
    by rewrite lookup_empty in Hempty.
Qed.

End Calls.

Section Registry.
Context `{C : Collaborators}.

Implicit Types (b : Builder).

(** *** What the registry is asked *)

Lemma resourceTupleMappingsLoop_asked (ts : list resourceTuple)
    (mappings : gmap string RESTMapping) (canonical : gset string) :
  NoDup (asked (resourceTupleMappingsLoop ts mappings canonical).2)
  ∧ ∀ r, r ∈ asked (resourceTupleMappingsLoop ts mappings canonical).2 →
         mappings !! r = None ∧ ∃ t, t ∈ ts ∧ tuple_Resource t = r.
Proof.
  revert mappings canonical.
  induction ts as [|t ts IH]; intros mappings canonical; simpl.
  { split; [constructor|]. intros r Hr. by apply elem_of_nil in Hr. }
  destruct (mappings !! tuple_Resource t) as [v0|] eqn:Hraw.
  { destruct (IH mappings canonical) as [Hnd Hfresh]. split; [done|].
    intros r Hr. destruct (Hfresh r Hr) as (Hnone & t' & Ht' & Heq).
    split; [done|]. exists t'. split; [apply elem_of_cons; by right | done]. }
  assert (Hhere : ∃ t', t' ∈ t :: ts ∧ tuple_Resource t' = tuple_Resource t)
    by (exists t; split; [apply elem_of_cons; by left | done]).
  unfold callVersionAndKindForResource, callRESTMapping, call.
  destruct (VersionAndKindForResource (tuple_Resource t)) as [msg|[version kind]]; simpl.
  { split; [apply NoDup_singleton|]. intros r Hr.
    apply list_elem_of_singleton in Hr as ->. by split. }
  destruct (mapper_RESTMapping kind version) as [msg|mapping]; simpl.
  { split; [apply NoDup_singleton|]. intros r Hr.
    apply list_elem_of_singleton in Hr as ->. by split. }
  match goal with
  | |- context [resourceTupleMappingsLoop ts ?m ?c] =>
      destruct (IH m c) as [Hnd Hfresh];
      destruct (resourceTupleMappingsLoop ts m c) as [res calls]
  end. simpl in *. split.
  - apply NoDup_cons. split; [|done]. intros Hin.
    destruct (Hfresh _ Hin) as [Hnone _]. by rewrite lookup_insert_eq in Hnone.
  - intros r Hr. apply elem_of_cons in Hr as [->|Hr]; [by split|].
    destruct (Hfresh r Hr) as (Hnone & t' & Ht' & Heq). split.
    + destruct (decide (tuple_Resource t = r)) as [Heq'|Hne];
        [by rewrite Heq', lookup_insert_eq in Hnone|].
      rewrite lookup_insert_ne in Hnone by done.
      destruct (decide (Resource mapping = r)) as [Heq'|Hne'];
        [by rewrite Heq', lookup_insert_eq in Hnone|].
      by rewrite lookup_insert_ne in Hnone.
    + exists t'. split; [apply elem_of_cons; by right | done].
Qed.

(** X20: [resourceTupleMappings] asks the registry about a resource string
    at most once, however many tuples name it, and only about resource
    strings of the tuples. *)
Theorem resourceTupleMappings_asks_once b :
  NoDup (asked (resourceTupleMappings b).2)
  ∧ ∀ r, r ∈ asked (resourceTupleMappings b).2 →
         ∃ t, t ∈ resourceTuples b ∧ tuple_Resource t = r.
Proof.
  destruct (resourceTupleMappingsLoop_asked (resourceTuples b) ∅ ∅) as [Hnd Hfrom].
  assert (Hlog : (resourceTupleMappings b).2
                 = (resourceTupleMappingsLoop (resourceTuples b) ∅ ∅).2).
  { unfold resourceTupleMappings, bind, singleTypeCheck.
    destruct (resourceTupleMappingsLoop (resourceTuples b) ∅ ∅) as [[e|[m c]] calls];
      simpl; [done|].
    destruct ((1 <? size c) && singleResourceType b); simpl; by rewrite app_nil_r. }
  rewrite Hlog. split; [done|]. intros r Hr. by destruct (Hfrom r Hr) as [_ ?].
Qed.

(** X21: in every builder made by the configuration methods, the recorded
    errors are errors the builder made itself, and names are never recorded
    without a resource type. *)
Theorem configure_keeps_names_with_types (cs : list Call) :
  Forall builderError (errs (configure cs))
  ∧ (names (configure cs) ≠ [] → resources (configure cs) ≠ []).
Proof. apply wellConfigured_configure. Qed.

(** X22: [resourceTupleMappings] applies the single-resource-type policy to
    canonical resource names: when every tuple resolves, the set it counts
    is exactly the set of resource names of the mappings in its table, and
    it fails with "you may only specify a single resource type" iff the
    flag is set and that set has more than one name; otherwise it returns
    the table. *)
Theorem tuple_policy_counts_canonical_names b
    (mappings : gmap string RESTMapping) (canonical : gset string) (calls : list Event) :
  resourceTupleMappingsLoop (resourceTuples b) ∅ ∅ = (inr (mappings, canonical), calls) →
  (∀ x, x ∈ canonical ↔ ∃ k v, mappings !! k = Some v ∧ Resource v = x)
  ∧ ((resourceTupleMappings b).1 = inl errSingleResourceType
     ↔ singleResourceType b = true ∧ 1 < size canonical)
  ∧ ((resourceTupleMappings b).1 = inr mappings
     ↔ ¬ (singleResourceType b = true ∧ 1 < size canonical)).
Proof. apply resourceTupleMappings_single_type. Qed.

(** X23: when no error was recorded and the client of every mapping can be
    made, the [singular] flag of the result, error or not, is: false in
    selector mode; else whether exactly one tuple was given; else whether
    exactly one name was given; else whether the one source is neither a
    directory nor a stream; false when nothing was configured. *)
Theorem singular_flag_when_clients_are_made b :
  errs b = [] →
  (∀ mapping, ∃ client, ClientForMapping mapping = inr client) →
  singular (visitorResult b).1 = expectedSingular b.
Proof. apply singular_by_mode. Qed.

End Registry.

(** ** The further properties on concrete configurations *)

Section ConcreteFurther.

Import Fake.

Lemma ResourceTypeOrNameArgs_tuples_witness :
  let ts := [{| tuple_Resource := "pods"; tuple_Name := "web" |};
             {| tuple_Resource := "svc"; tuple_Name := "db" |}] in
  @ResourceTypeOrNameArgs std false ["pods/web"; "svc/db"] (@NewBuilder std)
  = @set_resourceTuples std ts (@NewBuilder std).
Proof.
  intros ts.
  apply (@ResourceTypeOrNameArgs_tuples std (@NewBuilder std) false ts).
  - discriminate.
  - repeat (constructor; [by split_and!|]). constructor.
  - reflexivity.
Defined.

Lemma ResourceTypeOrNameArgs_stops_at_bad_tuple_witness :
  @ResourceTypeOrNameArgs std false ["pods/web"; "svc/db/extra"; "nodes/n1"] (@NewBuilder std)
  = @set_errs std [errManySlashes]
      (@set_resourceTuples std [{| tuple_Resource := "pods"; tuple_Name := "web" |}]
         (@NewBuilder std)).
Proof.
  pose proof (@ResourceTypeOrNameArgs_stops_at_bad_tuple std (@NewBuilder std) false
                [{| tuple_Resource := "pods"; tuple_Name := "web" |}]
                "svc/db/extra" ["nodes/n1"]) as H.
  apply H.
  - repeat (constructor; [by split_and!|]). constructor.
  - repeat (constructor; [reflexivity|]). constructor.
  - reflexivity.
  - vm_compute. lia.
Defined.

Lemma ResourceTypeOrNameArgs_alias_witness :
  resources (@ResourceTypeOrNameArgs shorthand false ["all"] (@NewBuilder shorthand))
  = ["pods"; "services"].
Proof.
  apply (@ResourceTypeOrNameArgs_alias shorthand (@NewBuilder shorthand) false "all"
           ["pods"; "services"]).
  - reflexivity.
  - discriminate.
  - repeat (constructor; [reflexivity|]). constructor.
  - repeat (constructor; [reflexivity|]). constructor.
Defined.

Lemma ResourceTypeAndNameArgs_agrees_witness :
  @ResourceTypeOrNameArgs std true ["pods,services"; "web"] (@NewBuilder std)
  = @ResourceTypeAndNameArgs std ["pods,services"; "web"] (@NewBuilder std).
Proof.
  apply (@ResourceTypeAndNameArgs_agrees std (@NewBuilder std) true "pods,services" "web");
    reflexivity.
Defined.

Lemma recorded_errors_stay_witness :
  let b := @Path std ["nowhere.json"] (@NewBuilder std) in
  let cs := [@CallPath std ["pod.json"]; @CallSelectAllParam std false;
             @CallResourceTypes std ["pods"]] in
  errs b ≠ []
  ∧ ∃ more,
      errs (fold_left (@applyCall std) cs b) = errs b ++ more
      ∧ @visitorResult std (fold_left (@applyCall std) cs b)
        = ({| singular := false; err := Some (Aggregate (errs b ++ more));
              visitor := NilVisitor; sources := [] |}, []).
Proof.
  intros b cs. split.
  - vm_compute. discriminate.
  - apply (@recorded_errors_stay std b cs). vm_compute. discriminate.
Defined.

Lemma path_mode_singular_witness :
  let cs := [@CallFilenameParam std ["pod.json"]; @CallNamespaceParam std "default"] in
  singular (@visitorResult std (@configure std cs)).1 = true
  ↔ ∃ v, paths (@configure std cs) = [v] ∧ isFileOrURL v = true.
Proof.
  intros cs. apply (proj2 (@path_mode_singular std cs)).
  unfold pathConfiguration. split_and!; try reflexivity. vm_compute. discriminate.
Defined.

Lemma resourceMappings_in_order_witness :
  let b := @ResourceTypes std ["svc"; "nodes"; "pods"] (@NewBuilder std) in
  @resourceMappings std b
  = (inr [services; nodes; pods], flat_map (@resolutionCalls std) ["svc"; "nodes"; "pods"]).
Proof.
  intros b.
  apply (proj1 (@resourceMappings_in_order std b eq_refl)).
  repeat (constructor; [by eexists _, _|]). constructor.
Defined.

Lemma visitorResult_nothing_to_do_witness :
  let b := @Latest std (@NamespaceParam std "default"
             (@ResourceTypes std ["pods"] (@NewBuilder std))) in
  @visitorResult std b = (errorResult false errNothingToDo, []).
Proof.
  intros b. apply (@visitorResult_nothing_to_do std b); reflexivity.
Defined.

Lemma visitorResult_selector_mode_witness :
  let b := @ResourceTypeOrNameArgs std true ["pods,nodes"]
             (@NamespaceParam std "default" (@NewBuilder std)) in
  (@visitorResult std b).1
  = {| singular := false; err := None;
       visitor := VisitorList
                    [@NewSelector std "client v1" pods "default" [];
                     @NewSelector std "client v1" nodes "" []];
       sources := [@NewSelector std "client v1" pods "default" [];
                   @NewSelector std "client v1" nodes "" []] |}.
Proof.
  intros b.
  pose proof (@visitorResult_selector_mode std b [] [pods; nodes] ["client v1"; "client v1"]
                eq_refl eq_refl eq_refl eq_refl ltac:(discriminate) eq_refl
                (or_intror (conj eq_refl eq_refl))) as H.
  rewrite H; [reflexivity | |].
  - repeat (constructor; [by eexists _, _|]). constructor.
  - repeat (constructor; [reflexivity|]). constructor.
Defined.

Lemma visitorResult_name_mode_unknown_type_witness :
  let b := @ResourceTypeOrNameArgs std false ["gadgets"; "web"]
             (@NamespaceParam std "default" (@NewBuilder std)) in
  @visitorResult std b
  = (errorResult true (Foreign "no resource gadgets has been defined"),
     [CallVersionAndKindForResource "gadgets"]).
Proof.
  intros b.
  apply (@visitorResult_name_mode_unknown_type std b "gadgets"
           "no resource gadgets has been defined");
    try reflexivity.
  - discriminate.
  - by left.
Defined.

Lemma visitorResult_name_mode_needs_namespace_witness :
  let b := @ResourceTypeOrNameArgs std false ["pods"; "web"] (@NewBuilder std) in
  @visitorResult std b
  = (errorResult true errNamespaceEmpty,
     [CallVersionAndKindForResource "pods"; CallRESTMapping "Pod" "v1";
      CallClientForMapping pods]).
Proof.
  intros b.
  apply (@visitorResult_name_mode_needs_namespace std b "pods" "v1" "Pod" pods "client v1");
    try reflexivity.
  discriminate.
Defined.

Lemma lookup_errors_never_occur_witness :
  ¬ isLookupError (Foreign "connection refused").
Proof.
  apply (@lookup_errors_never_occur offline
           (@ResourceTypeOrNameArgs offline false ["pods/web"]
              (@NamespaceParam offline "default" (@NewBuilder offline)))).
  left. reflexivity.
Defined.

Lemma fetches_only_in_name_mode_witness :
  let b := @ResourceTypeOrNameArgs std false ["pods"; "web"]
             (@NamespaceParam std "default" (@NewBuilder std)) in
  errs b = [] ∧ selectAll b = false ∧ selector b = None
  ∧ resourceTuples b = [] ∧ paths b = [] ∧ length (resources b) = 1
  ∧ Name (@NewInfo std "client v1" pods "default" "web") ∈ names b
  ∧ Object (@NewInfo std "client v1" pods "default" "web") = None.
Proof.
  intros b.
  apply (@fetches_only_in_name_mode std b (@NewInfo std "client v1" pods "default" "web")).
  vm_compute. do 3 (apply elem_of_cons; right). apply elem_of_cons. by left.
Defined.

Lemma visitorResult_tuple_mode_witness :
  let b := @ResourceTypeOrNameArgs std false ["pods/web"; "pod/db"]
             (@NamespaceParam std "default" (@NewBuilder std)) in
  let mappings : gmap string RESTMapping := <["pod" := pods]> (<["pods" := pods]> ∅) in
  ∃ made (clients : gmap string (@RESTClient std)) items,
    @visitorResult std b
    = ({| singular := false; err := None;
          visitor := VisitorList items; sources := items |},
       [CallVersionAndKindForResource "pods"; CallRESTMapping "Pod" "v1";
        CallVersionAndKindForResource "pod"; CallRESTMapping "Pod" "v1"]
       ++ map CallClientForMapping made)
    ∧ NoDup (clientKey <$> made)
    ∧ (∀ key client, clients !! key = Some client →
                     ∃ m, m ∈ made ∧ clientKey m = key
                          ∧ @ClientForMapping std m = inr client)
    ∧ Forall2 (@tupleInfo std b mappings clients) (resourceTuples b) items.
Proof.
  intros b mappings.
  apply (@visitorResult_tuple_mode std b mappings
           [CallVersionAndKindForResource "pods"; CallRESTMapping "Pod" "v1";
            CallVersionAndKindForResource "pod"; CallRESTMapping "Pod" "v1"]);
    try reflexivity; try discriminate.
  intros mapping. by eexists.
Defined.

Lemma configure_keeps_names_with_types_witness :
  let cs := [@CallResourceTypeAndNameArgs std ["pods"; "web"]; @CallPath std ["nowhere"]] in
  resources (@configure std cs) ≠ [].
Proof.
  intros cs. apply (proj2 (@configure_keeps_names_with_types std cs)).
  vm_compute. discriminate.
Defined.

Lemma singular_flag_when_clients_are_made_witness :
  let b := @ResourceTypeOrNameArgs std false ["pods/web"] (@NewBuilder std) in
  singular (@visitorResult std b).1 = @expectedSingular std b.
Proof.
  intros b. apply (@singular_flag_when_clients_are_made std b); [reflexivity|].
  intros mapping. by eexists.
Defined.

Lemma tuple_policy_counts_canonical_names_witness :
  let b := @SingleResourceType std
             (@ResourceTypeOrNameArgs std false ["pod/web"; "svc/db"] (@NewBuilder std)) in
  (@resourceTupleMappings std b).1 = inl errSingleResourceType
  ↔ singleResourceType b = true ∧ 1 < size ({["services"]} ∪ ({["pods"]} ∪ ∅) : gset string).
Proof.
  intros b.
  apply (@tuple_policy_counts_canonical_names std b
           (<["svc" := services]> (<["services" := services]>
              (<["pod" := pods]> (<["pods" := pods]> ∅))))
           ({["services"]} ∪ ({["pods"]} ∪ ∅))
           [CallVersionAndKindForResource "pod"; CallRESTMapping "Pod" "v1";
            CallVersionAndKindForResource "svc"; CallRESTMapping "Service" "v1"]).
  reflexivity.
Defined.

End ConcreteFurther.
